(** * Support graphs over a Bayesian network: construction and pruning

    A shallow embedding of [src/support_graph.py]:
    [get_markov_blanket], [create_support_graph] with its helpers
    [_expand] / [_add_support], and [prune_support_graph].

    Python sets and the networkx graphs are finite sets and maps
    ([gset], [gmap]); a loop over a Python set walks [elements] of the
    set, a fixed enumeration standing for the interpreter's unspecified
    iteration order.  Exceptions are the [Err] results of a small error
    monad. *)

From stdpp Require Import base option list gmap fin_sets fin_maps strings relations.

#[local] Set Warnings "-clear-no-such-hyp".

(** ** Support nodes and errors *)

(** A node of the support graph: [(variable_name, frozenset(forbidden_set))]. *)
Abbreviation snode := (string * gset string)%type.

Inductive error : Type :=
  | NetworkXError (n : string)  (* "The node n is not in the digraph." *)
  | KeyError (n : snode)        (* a dict lookup on a missing key *)
  | RecursionError.             (* the call depth budget is used up *)

Inductive result (A : Type) : Type :=
  | Ok (a : A)
  | Err (e : error).
Arguments Ok {A} a.
Arguments Err {A} e.

#[global] Instance result_fmap : FMap result := λ A B f r,
  match r with
  | Ok a => Ok (f a)
  | Err e => Err e
  end.

Definition is_ok {A : Type} (r : result A) : bool :=
  match r with
  | Ok _ => true
  | Err _ => false
  end.

(** Sequencing: [x ← r; k] runs [k] on the value of [r] and passes an
    exception on. *)
#[global] Instance result_bind : MBind result := λ A B k r,
  match r with
  | Ok a => k a
  | Err e => Err e
  end.

(** A [for] loop whose body may raise: the state is threaded through and
    the first error aborts the loop. *)
Fixpoint foldM {A S : Type} (f : S → A → result S) (s : S) (l : list A) : result S :=
  match l with
  | [] => Ok s
  | x :: l' => s' ← f s x; foldM f s' l'
  end.

(** ** The Bayesian network: a [networkx.DiGraph] over variable names

    [add_edge] creates missing endpoints, so the node set of a DiGraph
    always holds the endpoints of its edges: the nodes are the ones
    added on their own together with every endpoint. *)
Record network : Type := {
  bn_added : gset string;
  bn_edges : gset (string * string)
}.

Definition bn_nodes (bn : network) : gset string :=
  bn_added bn ∪ set_map fst (bn_edges bn) ∪ set_map snd (bn_edges bn).

Definition pred_set (bn : network) (v : string) : gset string :=
  set_map fst (filter (λ e, e.2 = v) (bn_edges bn)).

Definition succ_set (bn : network) (v : string) : gset string :=
  set_map snd (filter (λ e, e.1 = v) (bn_edges bn)).

(** [bn.predecessors(n)] and [bn.successors(n)] raise on a node that is
    not in the graph. *)
Definition predecessors (bn : network) (n : string) : result (gset string) :=
  if decide (n ∈ bn_nodes bn) then Ok (pred_set bn n) else Err (NetworkXError n).

Definition successors (bn : network) (n : string) : result (gset string) :=
  if decide (n ∈ bn_nodes bn) then Ok (succ_set bn n) else Err (NetworkXError n).

(** [bn.has_edge(u, v)] never raises. *)
Definition has_edge (bn : network) (u v : string) : bool :=
  bool_decide ((u, v) ∈ bn_edges bn).

(** ** get_markov_blanket *)

Definition get_markov_blanket (bn : network) (variable : string) : result (gset string) :=
  let blanket : gset string := ∅ in
  ps ← predecessors bn variable;
  let blanket := blanket ∪ ps in
  children ← successors bn variable;
  let blanket := blanket ∪ children in
  blanket ← foldM (λ blanket child,
                     cps ← predecessors bn child; Ok (blanket ∪ cps))
                  blanket (elements children);
  Ok (blanket ∖ {[variable]}).

(** The blanket as the specification words it:
    parents(v) ∪ children(v) ∪ (∪ parents(c) for c in children(v)), minus {v}. *)
Definition markov_blanket_spec (bn : network) (v : string) : gset string :=
  (pred_set bn v ∪ succ_set bn v
   ∪ ⋃ (pred_set bn <$> elements (succ_set bn v))) ∖ {[v]}.

(** ** The support graph under construction *)

(** Node attributes set by [add_node(node, label=..., f_set=...)].  The
    source stores [str(set(f))] under [f_set]; the rendering is kept as
    the set it prints. *)
Record attrs : Type := {
  label : string;
  f_set : gset string
}.

Record SupportGraph : Type := {
  sg_nodes : gmap snode attrs;
  sg_edges : gset (snode * snode)
}.

Definition empty_graph : SupportGraph :=
  {| sg_nodes := ∅; sg_edges := ∅ |}.

Definition add_node (g : SupportGraph) (n : snode) (a : attrs) : SupportGraph :=
  {| sg_nodes := <[n := a]> (sg_nodes g); sg_edges := sg_edges g |}.

(** [sg.add_edge(u, v)]; both endpoints are nodes of the graph at every
    call site (see [inv_edges_closed] below), so no node is created. *)
Definition add_edge (g : SupportGraph) (u v : snode) : SupportGraph :=
  {| sg_nodes := sg_nodes g; sg_edges := sg_edges g ∪ {[(u, v)]} |}.

Definition sg_has_edge (g : SupportGraph) (u v : snode) : bool :=
  bool_decide ((u, v) ∈ sg_edges g).

(** The two mutable objects threaded through [_expand] and
    [_add_support]: the graph [sg] and the dictionary [f_sets]. *)
Record build_state : Type := {
  sg : SupportGraph;
  f_sets : gmap snode (gset string)
}.

Definition with_sg (st : build_state) (g : SupportGraph) : build_state :=
  {| sg := g; f_sets := f_sets st |}.

(** [f_sets[node] = value] *)
Definition f_sets_set (st : build_state) (n : snode) (f : gset string) : build_state :=
  {| sg := sg st; f_sets := <[n := f]> (f_sets st) |}.

(** [f_sets[node]] *)
Definition f_sets_get (st : build_state) (n : snode) : result (gset string) :=
  match f_sets st !! n with
  | Some f => Ok f
  | None => Err (KeyError n)
  end.

(** ** _add_support, with the recursive call to [_expand] as a parameter *)
Definition _add_support (expand : build_state → snode → result build_state)
    (st : build_state) (node_i : snode) (var_j : string) (f_new : gset string)
    : result build_state :=
  let node_j : snode := (var_j, f_new) in
  if decide (node_j ∉ dom (sg_nodes (sg st))) then
    let g := add_node (sg st) node_j {| label := var_j; f_set := f_new |} in
    let g := add_edge g node_j node_i in
    expand (with_sg st g) node_j
  else if negb (sg_has_edge (sg st) node_j node_i) then
    Ok (with_sg st (add_edge (sg st) node_j node_i))
  else Ok st.

(** ** _expand *)

(** One iteration of the loop over the Markov blanket of [var_i]. *)
Definition expand_candidate
    (add : build_state → snode → string → gset string → result build_state)
    (bn : network) (node_i : snode) (st : build_state) (var_j : string)
    : result build_state :=
  let var_i := node_i.1 in
  F ← f_sets_get st node_i;
  if decide (var_j ∈ F) then Ok st
  else
    ps ← predecessors bn var_i;
    if decide (var_j ∈ ps) then
      F ← f_sets_get st node_i;
      let f_new := F ∪ {[var_j]} in
      add st node_i var_j f_new
    else
      cs ← successors bn var_i;
      if decide (var_j ∈ cs) then
        F ← f_sets_get st node_i;
        let f_new := F ∪ {[var_j]} in
        pj ← predecessors bn var_j;
        let other_parents := pj ∖ {[var_i]} in
        let f_new := f_new ∪ other_parents in
        add st node_i var_j f_new
      else
        si ← successors bn var_i;
        sj ← successors bn var_j;
        let common_children := si ∩ sj in
        foldM (λ st var_k,
                 if negb (has_edge bn var_i var_j) && negb (has_edge bn var_j var_i)
                 then
                   F ← f_sets_get st node_i;
                   let f_new := F ∪ {[var_j; var_k]} in
                   add st node_i var_j f_new
                 else Ok st)
              st (elements common_children).

(** [fuel] bounds the nesting depth of [_expand] calls, as the
    interpreter's recursion limit does. *)
Fixpoint _expand (fuel : nat) (bn : network) (st : build_state) (node_i : snode)
    {struct fuel} : result build_state :=
  match fuel with
  | 0 => Err RecursionError
  | S fuel' =>
      let f_set_i := node_i.2 in
      let st := f_sets_set st node_i f_set_i in
      mb ← get_markov_blanket bn node_i.1;
      foldM (expand_candidate (_add_support (_expand fuel' bn)) bn node_i)
            st (elements mb)
  end.

(** ** create_support_graph *)
Definition create_support_graph (fuel : nat) (bn : network)
    (variable_of_interest : string) : result SupportGraph :=
  let root_var := variable_of_interest in
  let root_f_set : gset string := {[root_var]} in
  let root_node : snode := (root_var, root_f_set) in
  let support_graph :=
    add_node empty_graph root_node {| label := root_var; f_set := root_f_set |} in
  let forbidden_sets : gmap snode (gset string) := <[root_node := root_f_set]> ∅ in
  st ← _expand fuel bn {| sg := support_graph; f_sets := forbidden_sets |} root_node;
  Ok (sg st).

(** The network of the source's example (Figure 2 of the paper). *)
Definition bn_crime : network :=
  {| bn_added := ∅;
     bn_edges := {[ ("Motive", "Psych_report"); ("Motive", "Crime");
                    ("Crime", "DNA_match"); ("Twin", "DNA_match") ]} |}.

(** ** The expansion rule as the specification words it

    The candidates of a node [(v, F)] are the members of the Markov
    blanket of [v] outside [F]; each is classified in the fixed order
    parent, child, spouse and yields the forbidden sets of its support
    requests. *)
Definition classify (bn : network) (v : string) (F : gset string) (w : string)
    : list (gset string) :=
  if decide (w ∈ pred_set bn v) then [F ∪ {[w]}]
  else if decide (w ∈ succ_set bn v) then [F ∪ {[w]} ∪ (pred_set bn w ∖ {[v]})]
  else if decide (((v, w) ∉ bn_edges bn) ∧ ((w, v) ∉ bn_edges bn))
       then (λ k, F ∪ {[w; k]}) <$> elements (succ_set bn v ∩ succ_set bn w)
       else [].

Definition candidates (bn : network) (v : string) (F : gset string) : list string :=
  filter (λ w, w ∉ F) (elements (markov_blanket_spec bn v)).

Definition support_requests (bn : network) (node : snode)
    : list (string * gset string) :=
  w ← candidates bn node.1 node.2;
  (λ f_new, (w, f_new)) <$> classify bn node.1 node.2 w.

(** An entry [f_sets[m]] that holds the forbidden set of [m] itself. *)
Definition registered (st : build_state) (m : snode) : Prop :=
  f_sets st !! m = Some m.2.

(** ** Invariants of the graph under construction *)

Definition sg_edge (g : SupportGraph) (a b : snode) : Prop :=
  (a, b) ∈ sg_edges g.

Record graph_inv (root : snode) (g : SupportGraph) : Prop := {
  inv_root : root ∈ dom (sg_nodes g);
  inv_edges_closed : ∀ a b,
    (a, b) ∈ sg_edges g → a ∈ dom (sg_nodes g) ∧ b ∈ dom (sg_nodes g);
  inv_var_forbidden : ∀ n, n ∈ dom (sg_nodes g) → n.1 ∈ n.2;
  inv_edge_grows : ∀ a b,
    (a, b) ∈ sg_edges g → b.2 ∪ {[a.1]} ⊆ a.2 ∧ a.1 ∉ b.2;
  inv_path : ∀ n, n ∈ dom (sg_nodes g) → rtc (sg_edge g) n root;
  inv_out : ∀ n, n ∈ dom (sg_nodes g) → n ≠ root → ∃ m, (n, m) ∈ sg_edges g;
  inv_attrs : ∀ n a, sg_nodes g !! n = Some a → label a = n.1 ∧ f_set a = n.2
}.

(** ** Queries on the support graph used by the pruner

    The pruner only queries nodes it takes from the graph's own node
    view, so the not-in-graph exception of [predecessors] and
    [successors] cannot arise there and the queries are total. *)
Definition sg_predecessors (g : SupportGraph) (n : snode) : gset snode :=
  set_map fst (filter (λ e, e.2 = n) (sg_edges g)).

Definition sg_successors (g : SupportGraph) (n : snode) : gset snode :=
  set_map snd (filter (λ e, e.1 = n) (sg_edges g)).

(** Every endpoint of an edge is a node: the shape of any networkx graph. *)
Definition graph_closed (g : SupportGraph) : Prop :=
  set_Forall (λ e, e.1 ∈ dom (sg_nodes g) ∧ e.2 ∈ dom (sg_nodes g)) (sg_edges g).

(** [nx.ancestors(G, source)], after the networkx documentation: all
    nodes having a path to [source], [source] itself left out.  The set
    is computed by closing [{source}] under predecessors, one round per
    node of the graph. *)
Definition preds_of (g : SupportGraph) (X : gset snode) : gset snode :=
  set_map fst (filter (λ e, e.2 ∈ X) (sg_edges g)).

Definition close_step (g : SupportGraph) (X : gset snode) : gset snode :=
  X ∪ preds_of g X.

Definition ancestors (g : SupportGraph) (source : snode) : gset snode :=
  Nat.iter (size (sg_nodes g)) (close_step g) {[source]} ∖ {[source]}.

(** [G.remove_nodes_from(nodes)]: each listed node that is in the graph
    goes, with every edge at it; a listed node that is not in the graph
    is skipped. *)
Definition remove_node (g : SupportGraph) (n : snode) : SupportGraph :=
  if decide (n ∈ dom (sg_nodes g)) then
    {| sg_nodes := delete n (sg_nodes g);
       sg_edges := filter (λ e, e.1 ≠ n ∧ e.2 ≠ n) (sg_edges g) |}
  else g.

Definition remove_nodes_from (g : SupportGraph) (nodes : list snode) : SupportGraph :=
  foldl remove_node g nodes.

(** ** prune_support_graph *)

(** The body of the [for node in pruned_sg.nodes()] loop. *)
Definition mark_node (pruned_sg : SupportGraph) (evidence_variables : gset string)
    (nodes_to_remove : gset snode) (entry : snode * attrs) : gset snode :=
  let node := entry.1 in
  let var := label entry.2 in
  let nodes_to_remove :=
    if decide (var ∈ evidence_variables)
    then nodes_to_remove ∪ ancestors pruned_sg node
    else nodes_to_remove in
  let parents := sg_predecessors pruned_sg node in
  if decide ((var ∉ evidence_variables) ∧ size parents = 0) then
    if decide (0 < length (elements (sg_successors pruned_sg node)))
    then nodes_to_remove ∪ {[node]}
    else nodes_to_remove
  else nodes_to_remove.

(** One pass: the set [nodes_to_remove] when the [for] loop ends. *)
Definition nodes_to_remove (pruned_sg : SupportGraph)
    (evidence_variables : gset string) : gset snode :=
  foldl (mark_node pruned_sg evidence_variables) ∅ (map_to_list (sg_nodes pruned_sg)).

(** The [while True] loop on the local graph [pruned_sg]; [fuel] bounds
    the number of passes and [None] means the bound was reached. *)
Fixpoint prune_loop (fuel : nat) (pruned_sg : SupportGraph)
    (evidence_variables : gset string) : option SupportGraph :=
  match fuel with
  | 0 => None
  | S fuel' =>
      let marked := nodes_to_remove pruned_sg evidence_variables in
      if decide (marked = ∅) then Some pruned_sg
      else prune_loop fuel'
             (remove_nodes_from pruned_sg (elements marked)) evidence_variables
  end.

(** [prune_support_graph] on graph values: [support_graph.copy()] is
    the same value held by a new object (see the store below). *)
Definition prune_support_graph (fuel : nat) (support_graph : SupportGraph)
    (evidence_variables : gset string) : option SupportGraph :=
  let pruned_sg := support_graph in
  prune_loop fuel pruned_sg evidence_variables.

(** ** The pruner on a store of graph objects

    Graphs are mutable objects; a variable holds a reference.
    [copy] allocates a new object, [remove_nodes_from] updates the
    object it is called on. *)
Abbreviation loc := positive.

Definition copy_at (h : gmap loc SupportGraph) (l : loc)
    : option (loc * gmap loc SupportGraph) :=
  g ← h !! l;
  let l' := fresh (dom h) in
  Some (l', <[l' := g]> h).

Definition remove_nodes_from_at (h : gmap loc SupportGraph) (l : loc)
    (nodes : list snode) : gmap loc SupportGraph :=
  alter (λ g, remove_nodes_from g nodes) l h.

Fixpoint prune_loop_at (fuel : nat) (h : gmap loc SupportGraph) (pruned_sg : loc)
    (evidence_variables : gset string) : option (gmap loc SupportGraph) :=
  match fuel with
  | 0 => None
  | S fuel' =>
      g ← h !! pruned_sg;
      let marked := nodes_to_remove g evidence_variables in
      if decide (marked = ∅) then Some h
      else prune_loop_at fuel'
             (remove_nodes_from_at h pruned_sg (elements marked))
             pruned_sg evidence_variables
  end.

Definition prune_support_graph_at (fuel : nat) (h : gmap loc SupportGraph)
    (support_graph : loc) (evidence_variables : gset string)
    : option (loc * gmap loc SupportGraph) :=
  '(pruned_sg, h) ← copy_at h support_graph;
  h ← prune_loop_at fuel h pruned_sg evidence_variables;
  Some (pruned_sg, h).

(** The support graph of the example, for the variable of interest [Crime]. *)
Definition sg_crime : SupportGraph :=
  match create_support_graph 4 bn_crime "Crime" with
  | Ok g => g
  | Err _ => empty_graph
  end.

(** ** The two removal rules as the specification words them *)

(** [n] is an ancestor of [m]: another node with a directed path of
    supporter edges to [m]. *)
Definition ancestor_of (g : SupportGraph) (n m : snode) : Prop :=
  n ≠ m ∧ tc (sg_edge g) n m.

(** Rule 1: [n] is an ancestor of a node whose variable is evidence. *)
Definition rule1 (g : SupportGraph) (E : gset string) (n : snode) : Prop :=
  ∃ m a, sg_nodes g !! m = Some a ∧ label a ∈ E ∧ ancestor_of g n m.

(** Rule 2: the variable of [n] is not evidence, [n] has no incoming
    edge and at least one outgoing edge. *)
Definition rule2 (g : SupportGraph) (E : gset string) (n : snode) : Prop :=
  ∃ a, sg_nodes g !! n = Some a ∧ (label a ∉ E)
       ∧ (∀ p, (p, n) ∉ sg_edges g) ∧ (∃ s, (n, s) ∈ sg_edges g).

(** ** The pruner as the specification words it

    A pass marks what the two rules select; if nothing is marked the
    graph is the result, otherwise all marked nodes go at once, with
    the edges at them, and the next pass runs on what is left. *)
Definition batch_removed (g : SupportGraph) (X : gset snode) (g1 : SupportGraph) : Prop :=
  (∀ n, sg_nodes g1 !! n = if decide (n ∈ X) then None else sg_nodes g !! n)
  ∧ (∀ a b, (a, b) ∈ sg_edges g1 ↔ (a, b) ∈ sg_edges g ∧ (a ∉ X) ∧ (b ∉ X)).

Inductive prune_spec (E : gset string) : SupportGraph → SupportGraph → Prop :=
  | prune_spec_done (g : SupportGraph) :
      (∀ n, ¬ rule1 g E n ∧ ¬ rule2 g E n) →
      prune_spec E g g
  | prune_spec_pass (g : SupportGraph) (X : gset snode) (g1 g' : SupportGraph) :
      (∀ n, n ∈ X ↔ rule1 g E n ∨ rule2 g E n) →
      X ≠ ∅ →
      batch_removed g X g1 →
      prune_spec E g1 g' →
      prune_spec E g g'.

(** The state in which [create_support_graph] starts the expansion of
    the example's root. *)
Definition st_crime : build_state :=
  {| sg := add_node empty_graph ("Crime", {["Crime"]})
             {| label := "Crime"; f_set := {["Crime"]} |};
     f_sets := {[("Crime", {["Crime"]}) := {["Crime"]}]} |}.

(** ** Growth of the graph and served requests *)

(** [g'] extends [g]: every node of [g] is a node of [g'] with the same
    attributes and every edge of [g] is an edge of [g']. *)
Definition graph_extends (g g' : SupportGraph) : Prop :=
  sg_nodes g ⊆ sg_nodes g' ∧ sg_edges g ⊆ sg_edges g'.


(** The example's support graph pruned on the evidence [DNA_match]. *)
Definition pruned_crime : SupportGraph :=
  default empty_graph (prune_support_graph 6 sg_crime {["DNA_match"]}).

(** The graph that holds the root node of [r] and nothing else. *)
Definition root_graph (r : string) : SupportGraph :=
  {| sg_nodes := {[(r, {[r]}) := {| label := r; f_set := {[r]} |}]};
     sg_edges := ∅ |}.

(** Display of a node, for the evaluated examples. *)
Definition show_node (n : snode) : string * list string := (n.1, elements n.2).

(** * Properties *)

(** ** The error monad *)

Lemma bind_Ok {A B : Type} (r : result A) (k : A → result B) (b : B) :
  (r ≫= k) = Ok b ↔ ∃ a, r = Ok a ∧ k a = Ok b.
Proof.
  destruct r as [a|e]; simpl; split.
  - intros Hk. by exists a.
  - by intros (a' & [= <-] & Hk).
  - intros [=].
  - by intros (a' & [=] & _).
Qed.

Lemma foldM_app {A S : Type} (f : S → A → result S) (s : S) (l1 l2 : list A) :
  foldM f s (l1 ++ l2) = foldM f s l1 ≫= λ s', foldM f s' l2.
Proof.
  revert s. induction l1 as [|x l1 IH]; intros s; simpl; [done|].
  destruct (f s x) as [s'|e]; simpl; [apply IH|done].
Qed.

(** A loop invariant carries from the initial state to the final one. *)
Lemma foldM_invariant {A S : Type} (P : S → Prop) (f : S → A → result S)
    (l : list A) (s s' : S) :
  P s →
  (∀ x t t', x ∈ l → P t → f t x = Ok t' → P t') →
  foldM f s l = Ok s' → P s'.
Proof.
  revert s. induction l as [|x l IH]; intros s Hs Hstep; simpl.
  - by intros [= <-].
  - intros (t & Hx & Hrest)%bind_Ok.
    apply (IH t); [|intros y u u' Hy; apply Hstep; by right|done].
    eapply Hstep; [by left|done..].
Qed.

(** A loop whose every iteration returns does return. *)
Lemma foldM_total {A S : Type} (P : S → Prop) (f : S → A → result S)
    (l : list A) (s : S) :
  P s →
  (∀ x t, x ∈ l → P t → ∃ t', f t x = Ok t' ∧ P t') →
  ∃ s', foldM f s l = Ok s' ∧ P s'.
Proof.
  revert s. induction l as [|x l IH]; intros s Hs Hstep; simpl.
  - by exists s.
  - destruct (Hstep x s) as (t & -> & Ht); [by left|done|]. simpl.
    apply IH; [done|]. intros y u Hy. apply Hstep. by right.
Qed.

(** ** The network *)

Lemma elem_of_pred_set (bn : network) (u v : string) :
  u ∈ pred_set bn v ↔ (u, v) ∈ bn_edges bn.
Proof.
  unfold pred_set. rewrite elem_of_map. split.
  - intros ([a b] & -> & [Hb He]%elem_of_filter). simpl in *. by subst.
  - intros He. exists (u, v). split; [done|]. by apply elem_of_filter.
Qed.

Lemma elem_of_succ_set (bn : network) (u v : string) :
  v ∈ succ_set bn u ↔ (u, v) ∈ bn_edges bn.
Proof.
  unfold succ_set. rewrite elem_of_map. split.
  - intros ([a b] & -> & [Hb He]%elem_of_filter). simpl in *. by subst.
  - intros He. exists (u, v). split; [done|]. by apply elem_of_filter.
Qed.

Lemma edge_source_node (bn : network) (u v : string) :
  (u, v) ∈ bn_edges bn → u ∈ bn_nodes bn.
Proof.
  intros He. unfold bn_nodes. apply elem_of_union_l, elem_of_union_r.
  apply elem_of_map. by exists (u, v).
Qed.

Lemma edge_target_node (bn : network) (u v : string) :
  (u, v) ∈ bn_edges bn → v ∈ bn_nodes bn.
Proof.
  intros He. unfold bn_nodes. apply elem_of_union_r.
  apply elem_of_map. by exists (u, v).
Qed.

Lemma has_edge_true (bn : network) (u v : string) :
  has_edge bn u v = true ↔ (u, v) ∈ bn_edges bn.
Proof. unfold has_edge. by rewrite bool_decide_eq_true. Qed.

Lemma predecessors_member (bn : network) (v : string) :
  v ∈ bn_nodes bn → predecessors bn v = Ok (pred_set bn v).
Proof. intros Hv. unfold predecessors. by rewrite decide_True. Qed.

Lemma successors_member (bn : network) (v : string) :
  v ∈ bn_nodes bn → successors bn v = Ok (succ_set bn v).
Proof. intros Hv. unfold successors. by rewrite decide_True. Qed.

Lemma predecessors_missing (bn : network) (v : string) :
  v ∉ bn_nodes bn → predecessors bn v = Err (NetworkXError v).
Proof. intros Hv. unfold predecessors. by rewrite decide_False. Qed.

(** ** The Markov blanket *)

Lemma blanket_loop (bn : network) (l : list string) (b : gset string) :
  (∀ c, c ∈ l → c ∈ bn_nodes bn) →
  foldM (λ blanket child, cps ← predecessors bn child; Ok (blanket ∪ cps)) b l
  = Ok (b ∪ ⋃ (pred_set bn <$> l)).
Proof.
  revert b. induction l as [|c l IH]; intros b Hl; simpl.
  - f_equal. set_solver.
  - rewrite predecessors_member; [|apply Hl; by left]. simpl.
    rewrite IH; [|intros c' Hc'; apply Hl; by right].
    f_equal. set_solver.
Qed.

Lemma get_markov_blanket_member (bn : network) (v : string) :
  v ∈ bn_nodes bn → get_markov_blanket bn v = Ok (markov_blanket_spec bn v).
Proof.
  intros Hv. unfold get_markov_blanket, markov_blanket_spec.
  rewrite predecessors_member, successors_member by done. simpl.
  rewrite blanket_loop.
  - simpl. f_equal. set_solver.
  - intros c Hc%elem_of_elements%elem_of_succ_set.
    by eapply edge_target_node.
Qed.

Lemma elem_of_markov_blanket_spec (bn : network) (v w : string) :
  w ∈ markov_blanket_spec bn v ↔
    w ≠ v ∧ ((w, v) ∈ bn_edges bn ∨ (v, w) ∈ bn_edges bn
             ∨ ∃ c, (v, c) ∈ bn_edges bn ∧ (w, c) ∈ bn_edges bn).
Proof.
  unfold markov_blanket_spec.
  rewrite elem_of_difference, !elem_of_union, elem_of_union_list,
    elem_of_pred_set, elem_of_succ_set, not_elem_of_singleton.
  split; intros [H Hne]; split; try done.
  - destruct H as [[?|?]|(X & HX & Hw)]; [by left|by right; left|].
    apply list_elem_of_fmap in HX as (c & -> & Hc).
    apply elem_of_elements, elem_of_succ_set in Hc.
    apply elem_of_pred_set in Hw. right; right. by exists c.
  - destruct Hne as [?|[?|(c & Hc & Hw)]]; [by left; left|by left; right|].
    right. exists (pred_set bn c). split; [|by apply elem_of_pred_set].
    apply list_elem_of_fmap. exists c. split; [done|].
    by apply elem_of_elements, elem_of_succ_set.
Qed.

Lemma markov_blanket_nodes (bn : network) (v w : string) :
  w ∈ markov_blanket_spec bn v → w ∈ bn_nodes bn.
Proof.
  intros [_ [H|[H|(c & _ & H)]]]%elem_of_markov_blanket_spec.
  - by eapply edge_source_node.
  - by eapply edge_target_node.
  - by eapply edge_source_node.
Qed.

(** ** Expansion as a list of support requests *)

Lemma foldM_fmap {A B S : Type} (f : S → B → result S) (g : A → B)
    (s : S) (l : list A) :
  foldM f s (g <$> l) = foldM (λ t x, f t (g x)) s l.
Proof.
  revert s. induction l as [|x l IH]; intros s; simpl; [done|].
  destruct (f s (g x)); simpl; [apply IH|done].
Qed.

Lemma f_sets_get_Some (st : build_state) (n : snode) (F : gset string) :
  f_sets st !! n = Some F → f_sets_get st n = Ok F.
Proof. intros H. unfold f_sets_get. by rewrite H. Qed.

Section requests.
Variable add : build_state → snode → string → gset string → result build_state.
Hypothesis add_stable : ∀ st i w f st' m,
  add st i w f = Ok st' → registered st m → registered st' m.
Variable bn : network.

Lemma requests_loop_stable (node_i : snode) (w : string)
    (l : list (gset string)) (st st' : build_state) (m : snode) :
  foldM (λ t f_new, add t node_i w f_new) st l = Ok st' →
  registered st m → registered st' m.
Proof.
  intros Hl Hm. revert Hl.
  apply (foldM_invariant (λ t, registered t m)); [done|].
  intros f t t' _ Ht Hadd. by eapply add_stable.
Qed.

Lemma spouse_loop (node_i : snode) (w : string) (l : list string)
    (st : build_state) :
  registered st node_i →
  has_edge bn node_i.1 w = false → has_edge bn w node_i.1 = false →
  foldM (λ st var_k,
           if negb (has_edge bn node_i.1 w) && negb (has_edge bn w node_i.1)
           then F ← f_sets_get st node_i; add st node_i w (F ∪ {[w; var_k]})
           else Ok st) st l
  = foldM (λ t f_new, add t node_i w f_new) st
          ((λ k, node_i.2 ∪ {[w; k]}) <$> l).
Proof.
  intros Hreg -> ->. simpl. revert st Hreg.
  induction l as [|k l IH]; intros st Hreg; simpl; [done|].
  rewrite (f_sets_get_Some _ _ _ Hreg). simpl.
  destruct (add st node_i w (node_i.2 ∪ {[w; k]})) as [t|e] eqn:Hadd; simpl; [|done].
  apply IH. by eapply add_stable.
Qed.

Lemma expand_candidate_requests (node_i : snode) (w : string)
    (st : build_state) :
  registered st node_i → node_i.1 ∈ bn_nodes bn → w ∈ bn_nodes bn →
  expand_candidate add bn node_i st w
  = foldM (λ t f_new, add t node_i w f_new) st
          (if decide (w ∈ node_i.2) then []
           else classify bn node_i.1 node_i.2 w).
Proof.
  intros Hreg Hv Hw. unfold expand_candidate, classify.
  rewrite (f_sets_get_Some _ _ _ Hreg). simpl.
  destruct (decide (w ∈ node_i.2)) as [|HwF]; [done|].
  rewrite (predecessors_member bn node_i.1) by done. simpl.
  destruct (decide (w ∈ pred_set bn node_i.1)) as [|Hnp].
  { simpl. by destruct (add _ _ _ _). }
  rewrite (successors_member bn node_i.1) by done. simpl.
  destruct (decide (w ∈ succ_set bn node_i.1)) as [|Hnc].
  { rewrite (predecessors_member bn w) by done. simpl.
    by destruct (add _ _ _ _). }
  rewrite (successors_member bn w) by done. simpl.
  rewrite elem_of_pred_set in Hnp. rewrite elem_of_succ_set in Hnc.
  rewrite decide_True by done.
  apply spouse_loop; [done|..]; apply not_true_is_false;
    by rewrite has_edge_true.
Qed.

Lemma expand_loop_requests (node_i : snode) (l : list string)
    (st : build_state) :
  registered st node_i → node_i.1 ∈ bn_nodes bn →
  (∀ w, w ∈ l → w ∈ bn_nodes bn) →
  foldM (expand_candidate add bn node_i) st l
  = foldM (λ t r, add t node_i r.1 r.2) st
          (w ← filter (λ w, w ∉ node_i.2) l;
           (λ f_new, (w, f_new)) <$> classify bn node_i.1 node_i.2 w).
Proof.
  intros Hreg Hv. revert st Hreg.
  induction l as [|w l IH]; intros st Hreg Hl; simpl; [done|].
  rewrite expand_candidate_requests by (done || apply Hl; by left).
  rewrite filter_cons.
  destruct (decide (w ∈ node_i.2)) as [HwF|HwF].
  - rewrite decide_False by (by intros ?). simpl.
    apply IH; [done|]. intros w' Hw'. apply Hl. by right.
  - rewrite decide_True by done. simpl. rewrite foldM_app, foldM_fmap. simpl.
    destruct (foldM _ st (classify bn node_i.1 node_i.2 w)) as [t|e] eqn:Hc;
      simpl; [|done].
    apply IH; [by eapply requests_loop_stable|].
    intros w' Hw'. apply Hl. by right.
Qed.
End requests.

Lemma get_markov_blanket_missing (bn : network) (v : string) :
  v ∉ bn_nodes bn → get_markov_blanket bn v = Err (NetworkXError v).
Proof.
  intros Hv. unfold get_markov_blanket. by rewrite predecessors_missing.
Qed.

Lemma registered_f_sets_set (st : build_state) (n m : snode) :
  registered st m → registered (f_sets_set st n n.2) m.
Proof.
  unfold registered, f_sets_set. simpl. intros Hm.
  destruct (decide (n = m)) as [->|Hne].
  - by rewrite lookup_insert_eq.
  - by rewrite lookup_insert_ne.
Qed.

Lemma registered_self (st : build_state) (n : snode) :
  registered (f_sets_set st n n.2) n.
Proof. unfold registered, f_sets_set. simpl. by rewrite lookup_insert_eq. Qed.

Lemma _add_support_stable (expand : build_state → snode → result build_state) :
  (∀ st n st' m, expand st n = Ok st' → registered st m → registered st' m) →
  ∀ st i w f st' m,
    _add_support expand st i w f = Ok st' → registered st m → registered st' m.
Proof.
  intros Hexp st i w f st' m. unfold _add_support.
  destruct (decide _).
  - intros H Hm. by eapply Hexp.
  - destruct (negb _); by intros [= <-].
Qed.

Lemma _expand_stable (fuel : nat) (bn : network) :
  ∀ st n st' m,
    _expand fuel bn st n = Ok st' → registered st m → registered st' m.
Proof.
  induction fuel as [|fuel IH]; intros st n st' m; simpl; [done|].
  destruct (decide (n.1 ∈ bn_nodes bn)) as [Hv|Hv].
  - rewrite get_markov_blanket_member by done. simpl.
    intros Hloop Hm. revert Hloop.
    apply (foldM_invariant (λ t, registered t m)).
    + by apply registered_f_sets_set.
    + intros w t t' _ Ht.
      unfold expand_candidate.
      intros (F & _ & Hrest)%bind_Ok.
      assert (Hadd : ∀ u u' f, registered u m →
                _add_support (_expand fuel bn) u n w f = Ok u' → registered u' m).
      { intros u u' f Hu Hu'. by eapply _add_support_stable. }
      destruct (decide _); [by injection Hrest as <-|].
      apply bind_Ok in Hrest as (ps & _ & Hrest).
      destruct (decide _).
      { apply bind_Ok in Hrest as (F' & _ & Hrest). by eapply Hadd. }
      apply bind_Ok in Hrest as (cs & _ & Hrest).
      destruct (decide _).
      { apply bind_Ok in Hrest as (F' & _ & (pj & _ & Hrest)%bind_Ok).
        by eapply Hadd. }
      apply bind_Ok in Hrest as (si & _ & (sj & _ & Hrest)%bind_Ok).
      revert Hrest. apply (foldM_invariant (λ t, registered t m)); [done|].
      intros k u u' _ Hu. destruct (_ && _); [|by intros [= <-]].
      intros (F' & _ & Hrest)%bind_Ok. by eapply Hadd.
  - by rewrite get_markov_blanket_missing.
Qed.

(** [_expand] on a member variable issues the support requests of the
    node, in order, against the state in which the node is registered. *)
Lemma _expand_requests (fuel : nat) (bn : network) (st : build_state)
    (node_i : snode) :
  node_i.1 ∈ bn_nodes bn →
  _expand (S fuel) bn st node_i
  = foldM (λ t r, _add_support (_expand fuel bn) t node_i r.1 r.2)
          (f_sets_set st node_i node_i.2) (support_requests bn node_i).
Proof.
  intros Hv. simpl. rewrite get_markov_blanket_member by done. simpl.
  apply expand_loop_requests.
  - apply _add_support_stable, _expand_stable.
  - apply registered_self.
  - done.
  - intros w Hw%elem_of_elements. by eapply markov_blanket_nodes.
Qed.

Lemma _expand_missing (fuel : nat) (bn : network) (st : build_state)
    (node_i : snode) :
  node_i.1 ∉ bn_nodes bn →
  _expand (S fuel) bn st node_i = Err (NetworkXError node_i.1).
Proof.
  intros Hv. simpl. by rewrite get_markov_blanket_missing.
Qed.

Lemma classify_grows (bn : network) (v w : string) (F f : gset string) :
  f ∈ classify bn v F w → F ∪ {[w]} ⊆ f.
Proof.
  unfold classify. repeat case_decide.
  - intros ->%list_elem_of_singleton. done.
  - intros ->%list_elem_of_singleton. set_solver.
  - intros (k & -> & _)%list_elem_of_fmap. set_solver.
  - by intros ?%elem_of_nil.
Qed.

Lemma elem_of_candidates (bn : network) (v w : string) (F : gset string) :
  w ∈ candidates bn v F ↔ w ∈ markov_blanket_spec bn v ∧ w ∉ F.
Proof.
  unfold candidates. rewrite list_elem_of_filter, elem_of_elements. tauto.
Qed.

Lemma elem_of_support_requests (bn : network) (node : snode)
    (w : string) (f : gset string) :
  (w, f) ∈ support_requests bn node ↔
    w ∈ markov_blanket_spec bn node.1 ∧ (w ∉ node.2)
    ∧ f ∈ classify bn node.1 node.2 w.
Proof.
  unfold support_requests. rewrite list_elem_of_bind. split.
  - intros (w' & (f' & [= -> ->] & Hf)%list_elem_of_fmap & Hw%elem_of_candidates).
    tauto.
  - intros (Hw & HF & Hf). exists w. split.
    + apply list_elem_of_fmap. by exists f.
    + by apply elem_of_candidates.
Qed.

(** ** Termination of the expansion *)

Lemma _expand_total (fuel : nat) (bn : network) :
  ∀ st n,
    n.1 ∈ bn_nodes bn → size (bn_nodes bn ∖ n.2) < fuel →
    ∃ st', _expand fuel bn st n = Ok st'.
Proof.
  induction fuel as [|fuel IH]; intros st n Hv Hsize; [lia|].
  rewrite _expand_requests by done.
  destruct (foldM_total (λ _, True)
              (λ t r, _add_support (_expand fuel bn) t n r.1 r.2)
              (support_requests bn n) (f_sets_set st n n.2)) as (st' & Hst' & _);
    [done| |by exists st'].
  intros [w f] t (Hw & HwF & Hf)%elem_of_support_requests _. simpl.
  apply classify_grows in Hf.
  unfold _add_support. destruct (decide _).
  - destruct (IH (with_sg t (add_edge (add_node (sg t) (w, f)
                   {| label := w; f_set := f |}) (w, f) n)) (w, f)) as [t' Ht'].
    + simpl. by eapply markov_blanket_nodes.
    + simpl. apply markov_blanket_nodes in Hw.
      assert (bn_nodes bn ∖ f ⊂ bn_nodes bn ∖ n.2) as Hlt%subset_size; [|lia].
      split; [set_solver|]. intros Hsub. specialize (Hsub w). set_solver.
    + by exists t'.
  - destruct (negb _); eauto.
Qed.

(** ** The invariants hold along the construction *)

Lemma graph_inv_init (r : string) :
  graph_inv (r, {[r]})
    (add_node empty_graph (r, {[r]}) {| label := r; f_set := {[r]} |}).
Proof.
  split; simpl.
  - rewrite dom_insert_L. set_solver.
  - intros a b Hab. set_solver.
  - intros n. rewrite dom_insert_L, dom_empty_L. intros Hn.
    assert (n = (r, {[r]})) as -> by set_solver. simpl. set_solver.
  - intros a b Hab. set_solver.
  - intros n. rewrite dom_insert_L, dom_empty_L. intros Hn.
    assert (n = (r, {[r]})) as -> by set_solver. apply rtc_refl.
  - intros n. rewrite dom_insert_L, dom_empty_L. intros Hn Hne. set_solver.
  - intros n a. rewrite lookup_insert. case_decide as Hn.
    + intros [= <-]. by subst n.
    + by rewrite lookup_empty.
Qed.

(** A support request answered by a new edge into [node_i], with the
    supporter [(w, f)] either already present or inserted now. *)
Lemma graph_inv_support (root : snode) (g : SupportGraph)
    (nodes' : gmap snode attrs) (node_i : snode) (w : string) (f : gset string) :
  graph_inv root g →
  node_i ∈ dom (sg_nodes g) →
  w ∉ node_i.2 → node_i.2 ∪ {[w]} ⊆ f →
  dom nodes' = {[(w, f)]} ∪ dom (sg_nodes g) →
  (∀ n a, nodes' !! n = Some a → label a = n.1 ∧ f_set a = n.2) →
  graph_inv root
    {| sg_nodes := nodes'; sg_edges := sg_edges g ∪ {[((w, f), node_i)]} |}.
Proof.
  intros Hg Hi Hw Hf Hdom Hattrs.
  assert (Hmono : ∀ x y, sg_edge g x y →
    sg_edge {| sg_nodes := nodes'; sg_edges := sg_edges g ∪ {[((w, f), node_i)]} |} x y).
  { unfold sg_edge. simpl. set_solver. }
  split; simpl.
  - rewrite Hdom. apply elem_of_union_r, Hg.
  - intros a b [Hab|Hab%elem_of_singleton]%elem_of_union; rewrite Hdom.
    + apply (inv_edges_closed _ _ Hg) in Hab. set_solver.
    + injection Hab as -> ->. set_solver.
  - intros n. rewrite Hdom.
    intros [->%elem_of_singleton|Hn]%elem_of_union.
    + simpl. set_solver.
    + by apply (inv_var_forbidden _ _ Hg).
  - intros a b [Hab|Hab%elem_of_singleton]%elem_of_union.
    + by apply (inv_edge_grows _ _ Hg).
    + injection Hab as -> ->. simpl. done.
  - intros n. rewrite Hdom.
    intros [->%elem_of_singleton|Hn]%elem_of_union.
    + apply rtc_l with node_i.
      * unfold sg_edge. simpl. set_solver.
      * eapply rtc_subrel; [exact Hmono|]. by apply (inv_path _ _ Hg).
    + eapply rtc_subrel; [exact Hmono|]. by apply (inv_path _ _ Hg).
  - intros n. rewrite Hdom.
    intros [->%elem_of_singleton|Hn]%elem_of_union Hne.
    + exists node_i. set_solver.
    + destruct (inv_out _ _ Hg n Hn Hne) as [m Hm]. exists m. set_solver.
  - done.
Qed.

Lemma _add_support_inv (root : snode)
    (expand : build_state → snode → result build_state) :
  (∀ st n st', graph_inv root (sg st) → n ∈ dom (sg_nodes (sg st)) →
     expand st n = Ok st' →
     graph_inv root (sg st') ∧ dom (sg_nodes (sg st)) ⊆ dom (sg_nodes (sg st'))) →
  ∀ st node_i w f st',
    graph_inv root (sg st) → node_i ∈ dom (sg_nodes (sg st)) →
    w ∉ node_i.2 → node_i.2 ∪ {[w]} ⊆ f →
    _add_support expand st node_i w f = Ok st' →
    graph_inv root (sg st') ∧ dom (sg_nodes (sg st)) ⊆ dom (sg_nodes (sg st')).
Proof.
  intros Hexp st node_i w f st' Hg Hi Hw Hf. unfold _add_support.
  destruct (decide _) as [Hnew|Hold].
  - intros Hrec. apply Hexp in Hrec as [Hg' Hsub].
    + split; [done|]. etrans; [|exact Hsub]. simpl.
      rewrite dom_insert_L. set_solver.
    + simpl. apply (graph_inv_support root (sg st)); try done.
      * simpl. by rewrite dom_insert_L.
      * intros n a. simpl. rewrite lookup_insert. case_decide as Hn.
        -- intros [= <-]. by subst n.
        -- apply (inv_attrs _ _ Hg).
    + simpl. rewrite dom_insert_L. set_solver.
  - apply dec_stable in Hold.
    destruct (negb _); intros [= <-]; [|done]. simpl. split; [|done].
    unfold add_edge. apply (graph_inv_support root (sg st)); try done.
    + set_solver.
    + apply (inv_attrs _ _ Hg).
Qed.

Lemma _expand_inv (root : snode) (fuel : nat) (bn : network) :
  ∀ st n st',
    graph_inv root (sg st) → n ∈ dom (sg_nodes (sg st)) →
    _expand fuel bn st n = Ok st' →
    graph_inv root (sg st') ∧ dom (sg_nodes (sg st)) ⊆ dom (sg_nodes (sg st')).
Proof.
  induction fuel as [|fuel IH]; intros st n st' Hg Hn; [done|].
  destruct (decide (n.1 ∈ bn_nodes bn)) as [Hv|Hv];
    [|by rewrite _expand_missing].
  rewrite _expand_requests by done.
  apply (foldM_invariant
    (λ t, graph_inv root (sg t) ∧ dom (sg_nodes (sg st)) ⊆ dom (sg_nodes (sg t)))).
  - done.
  - intros [w f] t t' (Hw & HwF & Hf%classify_grows)%elem_of_support_requests
      [Hgt Hsub] Hadd. simpl in Hadd.
    eapply _add_support_inv in Hadd as [Hgt' Hsub']; [|exact IH|try done..].
    + split; [done|]. by etrans.
    + by apply Hsub.
Qed.

Lemma create_support_graph_inv (fuel : nat) (bn : network) (r : string)
    (G : SupportGraph) :
  create_support_graph fuel bn r = Ok G → graph_inv (r, {[r]}) G.
Proof.
  unfold create_support_graph. intros (st & Hexp & [= <-])%bind_Ok.
  eapply _expand_inv in Hexp as [HG _]; [done|..]; simpl.
  - apply graph_inv_init.
  - rewrite dom_insert_L. set_solver.
Qed.

(** ** Queries on the support graph *)

Lemma elem_of_sg_predecessors (g : SupportGraph) (p n : snode) :
  p ∈ sg_predecessors g n ↔ (p, n) ∈ sg_edges g.
Proof.
  unfold sg_predecessors. rewrite elem_of_map. split.
  - intros ([a b] & -> & [Hb He]%elem_of_filter). simpl in *. by subst.
  - intros He. exists (p, n). split; [done|]. by apply elem_of_filter.
Qed.

Lemma elem_of_sg_successors (g : SupportGraph) (n s : snode) :
  s ∈ sg_successors g n ↔ (n, s) ∈ sg_edges g.
Proof.
  unfold sg_successors. rewrite elem_of_map. split.
  - intros ([a b] & -> & [Hb He]%elem_of_filter). simpl in *. by subst.
  - intros He. exists (n, s). split; [done|]. by apply elem_of_filter.
Qed.

Lemma elem_of_preds_of (g : SupportGraph) (X : gset snode) (p : snode) :
  p ∈ preds_of g X ↔ ∃ n, n ∈ X ∧ (p, n) ∈ sg_edges g.
Proof.
  unfold preds_of. rewrite elem_of_map. split.
  - intros ([a b] & -> & [Hb He]%elem_of_filter). simpl in *. by exists b.
  - intros (n & Hn & He). exists (p, n). split; [done|]. by apply elem_of_filter.
Qed.

Lemma graph_closed_edge (g : SupportGraph) (a b : snode) :
  graph_closed g → (a, b) ∈ sg_edges g →
  a ∈ dom (sg_nodes g) ∧ b ∈ dom (sg_nodes g).
Proof. intros Hg He. apply (Hg _ He). Qed.

(** ** Ancestors: the closure computes reachability *)

Section closure.
Variable g : SupportGraph.

Lemma close_iter_incl (k : nat) (X : gset snode) :
  X ⊆ Nat.iter k (close_step g) X.
Proof.
  induction k as [|k IH]; simpl; [done|]. unfold close_step at 1. set_solver.
Qed.

Lemma close_iter_sound (k : nat) (X : gset snode) (x : snode) :
  x ∈ Nat.iter k (close_step g) X → ∃ y, y ∈ X ∧ rtc (sg_edge g) x y.
Proof.
  revert x. induction k as [|k IH]; intros x; simpl.
  - intros Hx. exists x. split; [done|apply rtc_refl].
  - unfold close_step at 1.
    intros [Hx|(n & Hn & He)%elem_of_preds_of]%elem_of_union; [by apply IH|].
    destruct (IH _ Hn) as (y & Hy & Hpath).
    exists y. split; [done|]. by eapply rtc_l.
Qed.

Lemma close_fixpoint_complete (X : gset snode) (x y : snode) :
  close_step g X = X → rtc (sg_edge g) x y → y ∈ X → x ∈ X.
Proof.
  intros Hfix Hpath. induction Hpath as [|x z y Hxz _ IH]; [done|].
  intros Hy. rewrite <-Hfix. unfold close_step.
  apply elem_of_union_r, elem_of_preds_of. exists z. split; [by apply IH|done].
Qed.

Lemma close_iter_nodes (k : nat) (X : gset snode) :
  graph_closed g → X ⊆ dom (sg_nodes g) →
  Nat.iter k (close_step g) X ⊆ dom (sg_nodes g).
Proof.
  intros Hg HX. induction k as [|k IH]; simpl; [done|].
  unfold close_step at 1. apply union_subseteq. split; [done|].
  intros p (n & _ & He)%elem_of_preds_of.
  by apply (graph_closed_edge _ _ _ Hg He).
Qed.

(** Each round either adds a node or the set has stopped growing. *)
Lemma close_iter_grows (k : nat) (X : gset snode) :
  close_step g (Nat.iter k (close_step g) X) = Nat.iter k (close_step g) X
  ∨ k + size X ≤ size (Nat.iter k (close_step g) X).
Proof.
  induction k as [|k IH]; simpl; [right; lia|].
  destruct IH as [Hfix|Hsize]; [left; by rewrite !Hfix|].
  destruct (decide (close_step g (Nat.iter k (close_step g) X)
                    = Nat.iter k (close_step g) X)) as [Hfix|Hne].
  - left. by rewrite !Hfix.
  - right.
    assert (Nat.iter k (close_step g) X ⊂ close_step g (Nat.iter k (close_step g) X))
      as Hlt%subset_size; [|lia].
    split; [unfold close_step; set_solver|].
    intros Hsub. apply Hne. apply set_eq. intros z. split; [apply Hsub|].
    unfold close_step. set_solver.
Qed.

Lemma close_iter_complete (source x : snode) :
  graph_closed g → source ∈ dom (sg_nodes g) →
  rtc (sg_edge g) x source →
  x ∈ Nat.iter (size (sg_nodes g)) (close_step g) {[source]}.
Proof.
  intros Hg Hs Hpath.
  destruct (close_iter_grows (size (sg_nodes g)) {[source]}) as [Hfix|Hsize].
  - eapply close_fixpoint_complete; [done..|].
    apply close_iter_incl. set_solver.
  - rewrite size_singleton in Hsize.
    assert (Nat.iter (size (sg_nodes g)) (close_step g) {[source]}
            ⊆ dom (sg_nodes g)) as Hle%subseteq_size.
    { apply close_iter_nodes; [done|]. set_solver. }
    rewrite size_dom in Hle. lia.
Qed.

Lemma elem_of_ancestors (source x : snode) :
  graph_closed g → source ∈ dom (sg_nodes g) →
  x ∈ ancestors g source ↔ x ≠ source ∧ tc (sg_edge g) x source.
Proof.
  intros Hg Hs. unfold ancestors.
  rewrite elem_of_difference, not_elem_of_singleton. split.
  - intros [(y & ->%elem_of_singleton & Hpath)%close_iter_sound Hne].
    split; [done|]. apply rtc_tc in Hpath as [?|?]; done.
  - intros [Hne Hpath]. split; [|done].
    by apply close_iter_complete, tc_rtc.
Qed.

Lemma ancestors_nodes (source : snode) :
  graph_closed g → source ∈ dom (sg_nodes g) →
  ancestors g source ⊆ dom (sg_nodes g).
Proof.
  intros Hg Hs x. unfold ancestors. intros [Hx _]%elem_of_difference.
  revert x Hx.
  apply close_iter_nodes; [done|]. set_solver.
Qed.
End closure.

(** ** One pruning pass *)

Lemma elem_of_mark_node (g : SupportGraph) (E : gset string)
    (acc : gset snode) (entry : snode * attrs) (x : snode) :
  x ∈ mark_node g E acc entry ↔
    x ∈ acc
    ∨ (label entry.2 ∈ E ∧ x ∈ ancestors g entry.1)
    ∨ (x = entry.1 ∧ (label entry.2 ∉ E)
       ∧ (∀ p, (p, entry.1) ∉ sg_edges g) ∧ (∃ s, (entry.1, s) ∈ sg_edges g)).
Proof.
  assert (Hin : size (sg_predecessors g entry.1) = 0
                ↔ ∀ p, (p, entry.1) ∉ sg_edges g).
  { rewrite size_empty_iff, elem_of_equiv_empty.
    split; intros H p Hp; apply (H p); by apply elem_of_sg_predecessors. }
  assert (Hout : 0 < length (elements (sg_successors g entry.1))
                 ↔ ∃ s, (entry.1, s) ∈ sg_edges g).
  { split.
    - destruct (elements _) as [|s l] eqn:Hel; simpl; [lia|]. intros _.
      exists s. apply elem_of_sg_successors, elem_of_elements.
      rewrite Hel. by left.
    - intros (s & Hs%elem_of_sg_successors%elem_of_elements).
      destruct (elements _); simpl; [by apply elem_of_nil in Hs|lia]. }
  unfold mark_node.
  destruct (decide (label entry.2 ∈ E)) as [HE|HE].
  - rewrite decide_False by tauto. rewrite elem_of_union. tauto.
  - destruct (decide (_ ∧ _)) as [[_ Hp]|Hp].
    + destruct (decide (0 < _)) as [Hs|Hs].
      * rewrite elem_of_union, elem_of_singleton. tauto.
      * tauto.
    + tauto.
Qed.

Lemma elem_of_mark_loop (g : SupportGraph) (E : gset string)
    (l : list (snode * attrs)) (acc : gset snode) (x : snode) :
  x ∈ foldl (mark_node g E) acc l ↔
    x ∈ acc ∨ ∃ entry, entry ∈ l ∧ x ∈ mark_node g E ∅ entry.
Proof.
  revert acc. induction l as [|e l IH]; intros acc; simpl.
  - split; [by left|]. intros [?|(entry & []%elem_of_nil & _)]. done.
  - rewrite IH, elem_of_mark_node. split.
    + intros [[?|Hx]|(entry & Hentry & Hx)]; [by left| |].
      * right. exists e. split; [by left|]. rewrite elem_of_mark_node. by right.
      * right. exists entry. split; [by right|done].
    + intros [?|(entry & [->|Hentry]%elem_of_cons & Hx)]; [by left; left| |].
      * rewrite elem_of_mark_node in Hx.
        destruct Hx as [[]%not_elem_of_empty|Hx]. by left; right.
      * right. by exists entry.
Qed.

(** The marked set of a pass is exactly what the two rules select. *)
Lemma elem_of_nodes_to_remove (g : SupportGraph) (E : gset string) (n : snode) :
  graph_closed g →
  n ∈ nodes_to_remove g E ↔ rule1 g E n ∨ rule2 g E n.
Proof.
  intros Hg. unfold nodes_to_remove. rewrite elem_of_mark_loop. split.
  - intros [[]%not_elem_of_empty|([m a] & Hm%elem_of_map_to_list & Hx)].
    rewrite elem_of_mark_node in Hx. simpl in Hx.
    destruct Hx as [[]%not_elem_of_empty|[[HE Hanc]|(-> & HE & Hin & Hout)]].
    + left. exists m, a. split_and!; [done..|].
      apply elem_of_ancestors in Hanc; [done..|]. by apply elem_of_dom.
    + right. by exists a.
  - intros [(m & a & Hm & HE & Hanc)|(a & Hn & HE & Hin & Hout)]; right.
    + exists (m, a). split; [by apply elem_of_map_to_list|].
      rewrite elem_of_mark_node. right; left. split; [done|]. simpl.
      apply elem_of_ancestors; [done| |done]. by apply elem_of_dom.
    + exists (n, a). split; [by apply elem_of_map_to_list|].
      rewrite elem_of_mark_node. right; right. done.
Qed.

Lemma nodes_to_remove_nodes (g : SupportGraph) (E : gset string) :
  graph_closed g → nodes_to_remove g E ⊆ dom (sg_nodes g).
Proof.
  intros Hg n [(m & a & Hm & _ & _ & Hpath)|(a & Hn & _)]%elem_of_nodes_to_remove;
    [|by apply elem_of_dom|done].
  destruct Hpath as [n m He|n k m He _]; by apply (graph_closed_edge _ _ _ Hg He).
Qed.

(** ** Removing the marked nodes *)

Lemma remove_node_lookup (g : SupportGraph) (n m : snode) :
  sg_nodes (remove_node g n) !! m
  = if decide (m = n) then None else sg_nodes g !! m.
Proof.
  unfold remove_node. destruct (decide (n ∈ dom (sg_nodes g))) as [Hn|Hn]; simpl.
  - case_decide as Hm; [subst; apply lookup_delete_eq|by apply lookup_delete_ne].
  - case_decide as Hm; [|done]. subst. by apply not_elem_of_dom.
Qed.

Lemma remove_node_edges (g : SupportGraph) (n a b : snode) :
  graph_closed g →
  (a, b) ∈ sg_edges (remove_node g n) ↔ (a, b) ∈ sg_edges g ∧ a ≠ n ∧ b ≠ n.
Proof.
  intros Hg. unfold remove_node.
  destruct (decide (n ∈ dom (sg_nodes g))) as [Hn|Hn]; simpl.
  - rewrite elem_of_filter. simpl. tauto.
  - split; [|tauto]. intros He. split; [done|].
    destruct (graph_closed_edge _ _ _ Hg He). split; by intros ->.
Qed.

Lemma remove_node_closed (g : SupportGraph) (n : snode) :
  graph_closed g → graph_closed (remove_node g n).
Proof.
  intros Hg [a b] (He & Ha & Hb)%remove_node_edges; [|done]. simpl.
  destruct (graph_closed_edge _ _ _ Hg He) as [Hda Hdb].
  rewrite !elem_of_dom, !remove_node_lookup, !decide_False by done.
  by rewrite <-!elem_of_dom.
Qed.

Lemma remove_nodes_from_closed (g : SupportGraph) (l : list snode) :
  graph_closed g → graph_closed (remove_nodes_from g l).
Proof.
  revert g. induction l as [|n l IH]; intros g Hg; simpl; [done|].
  by apply IH, remove_node_closed.
Qed.

Lemma remove_nodes_from_lookup (g : SupportGraph) (l : list snode) (m : snode) :
  sg_nodes (remove_nodes_from g l) !! m
  = if decide (m ∈ l) then None else sg_nodes g !! m.
Proof.
  revert g. induction l as [|n l IH]; intros g; simpl; [done|].
  unfold remove_nodes_from in IH. rewrite IH, remove_node_lookup.
  destruct (decide (m ∈ l)) as [Hl|Hl].
  - rewrite decide_True; [done|by right].
  - destruct (decide (m = n)) as [->|Hne].
    + rewrite decide_True; [done|by left].
    + rewrite decide_False; [done|]. by intros [?|?]%elem_of_cons.
Qed.

Lemma remove_nodes_from_edges (g : SupportGraph) (l : list snode) (a b : snode) :
  graph_closed g →
  (a, b) ∈ sg_edges (remove_nodes_from g l) ↔
    (a, b) ∈ sg_edges g ∧ (a ∉ l) ∧ (b ∉ l).
Proof.
  revert g. induction l as [|n l IH]; intros g Hg; simpl.
  - split; [|tauto]. intros He. split_and!; [done|..]; by intros ?%elem_of_nil.
  - unfold remove_nodes_from in IH.
    rewrite IH, remove_node_edges, !not_elem_of_cons by (done || by apply remove_node_closed).
    tauto.
Qed.

Lemma remove_nodes_from_dom (g : SupportGraph) (X : gset snode) :
  dom (sg_nodes (remove_nodes_from g (elements X))) = dom (sg_nodes g) ∖ X.
Proof.
  apply set_eq. intros m.
  rewrite elem_of_difference, !elem_of_dom, remove_nodes_from_lookup.
  case_decide as Hm; rewrite elem_of_elements in Hm.
  - split; [by intros [? [=]]|tauto].
  - tauto.
Qed.

(** ** The fixed-point loop *)

Lemma prune_loop_total (fuel : nat) (E : gset string) :
  ∀ g, graph_closed g → size (sg_nodes g) < fuel →
       ∃ g', prune_loop fuel g E = Some g'.
Proof.
  induction fuel as [|fuel IH]; intros g Hg Hsize; [lia|]. simpl.
  destruct (decide (nodes_to_remove g E = ∅)) as [Hnone|Hsome]; [by exists g|].
  apply IH; [by apply remove_nodes_from_closed|].
  rewrite <-!size_dom, remove_nodes_from_dom.
  pose proof (nodes_to_remove_nodes g E Hg) as Hsub.
  apply set_choose_L in Hsome as [n Hn].
  assert (dom (sg_nodes g) ∖ nodes_to_remove g E ⊂ dom (sg_nodes g))
    as Hlt%subset_size; [|rewrite size_dom in Hlt; lia].
  split; [set_solver|]. intros Hall. specialize (Hall n (Hsub n Hn)). set_solver.
Qed.

(** The result of the loop is a graph in which a pass marks nothing. *)
Lemma prune_loop_fixed (fuel : nat) (E : gset string) :
  ∀ g g', prune_loop fuel g E = Some g' → nodes_to_remove g' E = ∅.
Proof.
  induction fuel as [|fuel IH]; intros g g'; simpl; [done|].
  destruct (decide (nodes_to_remove g E = ∅)) as [Hnone|Hsome].
  - by intros [= <-].
  - apply IH.
Qed.

Lemma prune_loop_closed (fuel : nat) (E : gset string) :
  ∀ g g', graph_closed g → prune_loop fuel g E = Some g' → graph_closed g'.
Proof.
  induction fuel as [|fuel IH]; intros g g' Hg; simpl; [done|].
  destruct (decide (nodes_to_remove g E = ∅)) as [Hnone|Hsome].
  - by intros [= <-].
  - apply IH. by apply remove_nodes_from_closed.
Qed.

(** ** Evidence outside the graph *)

Lemma mark_loop_ext (g : SupportGraph) (E E' : gset string)
    (l : list (snode * attrs)) (acc : gset snode) :
  (∀ entry, entry ∈ l → (label entry.2 ∈ E ↔ label entry.2 ∈ E')) →
  foldl (mark_node g E) acc l = foldl (mark_node g E') acc l.
Proof.
  revert acc. induction l as [|e l IH]; intros acc Hl; simpl; [done|].
  rewrite IH by (intros entry Hentry; apply Hl; by right).
  f_equal. unfold mark_node.
  pose proof (Hl e (list_elem_of_here _ _)) as He.
  repeat case_decide; first [done | tauto].
Qed.

(** Two evidence sets that agree on the labels of the graph prune alike. *)
Lemma prune_loop_ext (fuel : nat) (E E' : gset string) :
  ∀ g, (∀ n a, sg_nodes g !! n = Some a → (label a ∈ E ↔ label a ∈ E')) →
       prune_loop fuel g E = prune_loop fuel g E'.
Proof.
  induction fuel as [|fuel IH]; intros g Hg; simpl; [done|].
  assert (nodes_to_remove g E = nodes_to_remove g E') as <-.
  { apply mark_loop_ext. intros [n a] Hn%elem_of_map_to_list. by eapply Hg. }
  destruct (decide (nodes_to_remove g E = ∅)) as [Hnone|Hsome]; [done|].
  apply IH. intros n a. rewrite remove_nodes_from_lookup.
  case_decide; [done|]. apply Hg.
Qed.

(** ** The loop on the store *)

Lemma prune_loop_at_spec (fuel : nat) (E : gset string) (l : loc) :
  ∀ (h : gmap loc SupportGraph) (g : SupportGraph),
    h !! l = Some g →
    prune_loop_at fuel h l E = (λ g', <[l := g']> h) <$> prune_loop fuel g E.
Proof.
  induction fuel as [|fuel IH]; intros h g Hl; simpl; [done|].
  rewrite Hl. simpl.
  destruct (decide (nodes_to_remove g E = ∅)) as [Hnone|Hsome]; simpl.
  - by rewrite insert_id.
  - unfold remove_nodes_from_at.
    rewrite (IH _ (remove_nodes_from g (elements (nodes_to_remove g E)))).
    + destruct (prune_loop fuel _ E) as [g'|]; simpl; [|done].
      f_equal. by rewrite insert_alter_eq.
    + by rewrite lookup_alter_eq, Hl.
Qed.

Lemma prune_support_graph_at_spec (fuel : nat) (E : gset string) (l : loc)
    (h : gmap loc SupportGraph) (G : SupportGraph) :
  h !! l = Some G →
  prune_support_graph_at fuel h l E
  = (λ G', (fresh (dom h), <[fresh (dom h) := G']> h))
      <$> prune_support_graph fuel G E.
Proof.
  intros Hl. unfold prune_support_graph_at, prune_support_graph, copy_at.
  rewrite Hl. simpl.
  rewrite (prune_loop_at_spec fuel E _ _ G) by apply lookup_insert_eq.
  destruct (prune_loop fuel G E) as [G'|]; simpl; [|done].
  by rewrite insert_insert_eq.
Qed.

(** ** More fuel changes nothing *)

Lemma foldM_mono {A S : Type} (f g : S → A → result S) (l : list A) (s s' : S) :
  (∀ x t t', f t x = Ok t' → g t x = Ok t') →
  foldM f s l = Ok s' → foldM g s l = Ok s'.
Proof.
  intros Hfg. revert s. induction l as [|x l IH]; intros s; simpl; [done|].
  intros (t & Hx & Hrest)%bind_Ok. rewrite (Hfg _ _ _ Hx). simpl. by apply IH.
Qed.

Lemma _expand_fuel_S (fuel : nat) (bn : network) :
  ∀ st n st', _expand fuel bn st n = Ok st' → _expand (S fuel) bn st n = Ok st'.
Proof.
  induction fuel as [|fuel IH]; intros st n st'; [done|].
  destruct (decide (n.1 ∈ bn_nodes bn)) as [Hv|Hv];
    [|by rewrite _expand_missing].
  rewrite !_expand_requests by done.
  apply foldM_mono. intros [w f] t t'. unfold _add_support. simpl.
  destruct (decide _); [apply IH|done].
Qed.

Lemma _expand_fuel_mono (fuel fuel' : nat) (bn : network)
    (st : build_state) (n : snode) (st' : build_state) :
  fuel ≤ fuel' → _expand fuel bn st n = Ok st' → _expand fuel' bn st n = Ok st'.
Proof.
  induction 1 as [|k _ IH]; [done|]. intros H. by apply _expand_fuel_S, IH.
Qed.

Lemma prune_loop_spec (fuel : nat) (E : gset string) :
  ∀ g g', graph_closed g → prune_loop fuel g E = Some g' → prune_spec E g g'.
Proof.
  induction fuel as [|fuel IH]; intros g g' Hg; simpl; [done|].
  destruct (decide (nodes_to_remove g E = ∅)) as [Hnone|Hsome].
  - intros [= <-]. apply prune_spec_done. intros n.
    pose proof (elem_of_nodes_to_remove g E n Hg) as Hn.
    rewrite Hnone in Hn. set_solver.
  - intros Hloop.
    apply (prune_spec_pass E g (nodes_to_remove g E)
             (remove_nodes_from g (elements (nodes_to_remove g E)))).
    + intros n. by apply elem_of_nodes_to_remove.
    + done.
    + split.
      * intros n. rewrite remove_nodes_from_lookup.
        destruct (decide (n ∈ nodes_to_remove g E)) as [Hn|Hn].
        -- rewrite decide_True; [done|by apply elem_of_elements].
        -- rewrite decide_False; [done|by rewrite elem_of_elements].
      * intros a b. rewrite remove_nodes_from_edges by done.
        by rewrite !elem_of_elements.
    + apply IH; [by apply remove_nodes_from_closed|done].
Qed.

(** The specification determines the pruned graph. *)
Lemma prune_spec_functional (E : gset string) (g g1 g2 : SupportGraph) :
  prune_spec E g g1 → prune_spec E g g2 → g1 = g2.
Proof.
  intros H1. revert g2.
  induction H1 as [g Hnone|g X ga g' HX HXne Hrem _ IH]; intros g2 H2;
    inversion H2 as [g0 Hnone2|g0 X2 gb g2' HX2 HX2ne Hrem2 Hrest2]; subst.
  - done.
  - exfalso. apply set_choose_L in HX2ne as [n Hn]. apply HX2 in Hn.
    destruct (Hnone n). tauto.
  - exfalso. apply set_choose_L in HXne as [n Hn]. apply HX in Hn.
    destruct (Hnone2 n). tauto.
  - assert (X = X2) as <-.
    { apply set_eq. intros n. by rewrite HX, HX2. }
    assert (ga = gb) as <-.
    { destruct Hrem as [Hn He], Hrem2 as [Hn2 He2].
      destruct ga as [na ea], gb as [nb eb]. simpl in *. f_equal.
      - apply map_eq. intros n. by rewrite Hn, Hn2.
      - apply set_eq. intros [a b]. by rewrite He, He2. }
    by apply IH.
Qed.

Lemma classify_cases (bn : network) (v : string) (F : gset string) (w : string) :
  ((w, v) ∈ bn_edges bn → classify bn v F w = [F ∪ {[w]}])
  ∧ ((w, v) ∉ bn_edges bn → (v, w) ∈ bn_edges bn →
     classify bn v F w = [F ∪ {[w]} ∪ (pred_set bn w ∖ {[v]})])
  ∧ ((w, v) ∉ bn_edges bn → (v, w) ∉ bn_edges bn →
     classify bn v F w
     = (λ k, F ∪ {[w; k]}) <$> elements (succ_set bn v ∩ succ_set bn w)).
Proof.
  unfold classify. rewrite <-(elem_of_pred_set bn w v), <-(elem_of_succ_set bn v w).
  split_and!.
  - intros Hp. by rewrite decide_True.
  - intros Hp Hc. by rewrite decide_False, decide_True.
  - intros Hp Hc. rewrite !decide_False by done.
    rewrite decide_True; [done|].
    by rewrite <-(elem_of_pred_set bn w v), <-(elem_of_succ_set bn v w).
Qed.

Lemma NoDup_candidates (bn : network) (v : string) (F : gset string) :
  NoDup (candidates bn v F).
Proof. apply NoDup_filter, NoDup_elements. Qed.

(** Evaluation of a closed decidable proposition. *)
Ltac by_evaluation :=
  lazymatch goal with
  | |- ?P => apply (bool_decide_unpack P); vm_compute; exact I
  end.

Lemma create_crime : create_support_graph 4 bn_crime "Crime" = Ok sg_crime.
Proof.
  unfold sg_crime.
  assert (H : is_ok (create_support_graph 4 bn_crime "Crime") = true)
    by (vm_compute; reflexivity).
  destruct (create_support_graph 4 bn_crime "Crime"); [reflexivity|discriminate].
Qed.

Lemma sg_crime_closed : graph_closed sg_crime.
Proof. unfold graph_closed. by_evaluation. Qed.

(** ** The source's example, evaluated *)

Example blanket_of_crime :
  elements <$> get_markov_blanket bn_crime "Crime"
  = Ok ["Motive"; "Twin"; "DNA_match"].
Proof. vm_compute. reflexivity. Qed.

Example nodes_of_sg_crime :
  show_node <$> elements (dom (sg_nodes sg_crime))
  = [("Crime", ["Crime"]); ("Motive", ["Crime"; "Motive"]);
     ("Twin", ["Crime"; "Twin"; "DNA_match"]);
     ("DNA_match", ["Crime"; "Twin"; "DNA_match"]);
     ("Psych_report", ["Crime"; "Motive"; "Psych_report"])].
Proof. vm_compute. reflexivity. Qed.

Example edges_of_sg_crime :
  (λ e, (e.1.1, e.2.1)) <$> elements (sg_edges sg_crime)
  = [("Motive", "Crime"); ("Twin", "Crime"); ("DNA_match", "Crime");
     ("Psych_report", "Motive")].
Proof. vm_compute. reflexivity. Qed.

Example single_node_network :
  (λ g, (show_node <$> elements (dom (sg_nodes g)), elements (sg_edges g)))
    <$> create_support_graph 1 {| bn_added := {["X"]}; bn_edges := ∅ |} "X"
  = Ok ([("X", ["X"])], []).
Proof. vm_compute. reflexivity. Qed.

Example prune_crime_on_dna :
  (λ g, fst <$> elements (dom (sg_nodes g)))
    <$> prune_support_graph 6 sg_crime {["DNA_match"]}
  = Some ["Crime"; "DNA_match"].
Proof. vm_compute. reflexivity. Qed.

Example prune_crime_no_evidence :
  (λ g, fst <$> elements (dom (sg_nodes g)))
    <$> prune_support_graph 6 sg_crime ∅
  = Some ["Crime"].
Proof. vm_compute. reflexivity. Qed.

Example depth_budget_too_small :
  create_support_graph 2 bn_crime "Crime" = Err RecursionError.
Proof. vm_compute. reflexivity. Qed.

(** * The properties of the specification *)

(** C7. For a member variable [v], [get_markov_blanket] returns exactly
    parents(v) ∪ children(v) ∪ (∪ parents(c) for c in children(v))
    minus {v}: [w] is in the result iff [w ≠ v] and [w] is a parent of
    [v], a child of [v], or a parent of a child of [v].  The function
    is a pure function of the network. *)
Theorem get_markov_blanket_correct (bn : network) (v : string) :
  v ∈ bn_nodes bn →
  get_markov_blanket bn v
  = Ok ((pred_set bn v ∪ succ_set bn v
         ∪ ⋃ (pred_set bn <$> elements (succ_set bn v))) ∖ {[v]})
  ∧ ∀ w, w ∈ markov_blanket_spec bn v ↔
      w ≠ v ∧ ((w, v) ∈ bn_edges bn ∨ (v, w) ∈ bn_edges bn
               ∨ ∃ c, (v, c) ∈ bn_edges bn ∧ (w, c) ∈ bn_edges bn).
Proof.
  intros Hv. split.
  - by apply get_markov_blanket_member.
  - apply elem_of_markov_blanket_spec.
Qed.

Lemma get_markov_blanket_correct_witness :
  "Crime" ∈ bn_nodes bn_crime
  ∧ get_markov_blanket bn_crime "Crime"
    = Ok ((pred_set bn_crime "Crime" ∪ succ_set bn_crime "Crime"
           ∪ ⋃ (pred_set bn_crime <$> elements (succ_set bn_crime "Crime")))
          ∖ {["Crime"]}).
Proof.
  assert (H : "Crime" ∈ bn_nodes bn_crime) by by_evaluation.
  split; [exact H|].
  exact (proj1 (get_markov_blanket_correct bn_crime "Crime" H)).
Defined.

(** C8. For a variable [v] that is not a node of the network, both
    [get_markov_blanket] and [create_support_graph] raise the
    not-in-graph error naming [v]; neither returns a value. *)
Theorem unknown_variable_not_found (bn : network) (v : string) :
  v ∉ bn_nodes bn →
  get_markov_blanket bn v = Err (NetworkXError v)
  ∧ (∀ fuel, create_support_graph (S fuel) bn v = Err (NetworkXError v))
  ∧ (∀ fuel G, create_support_graph fuel bn v ≠ Ok G).
Proof.
  intros Hv. split_and!.
  - by apply get_markov_blanket_missing.
  - intros fuel. unfold create_support_graph.
    by rewrite _expand_missing.
  - intros [|fuel] G; unfold create_support_graph; [done|].
    by rewrite _expand_missing.
Qed.

Lemma unknown_variable_not_found_witness :
("Alibi" ∉ bn_nodes bn_crime)
  ∧ get_markov_blanket bn_crime "Alibi" = Err (NetworkXError "Alibi")
  ∧ create_support_graph 4 bn_crime "Alibi" = Err (NetworkXError "Alibi").
Proof.
  assert (H : "Alibi" ∉ bn_nodes bn_crime) by by_evaluation.
  destruct (unknown_variable_not_found bn_crime "Alibi" H) as (Hb & Hc & _).
  split_and!; [exact H|exact Hb|exact (Hc 3)].
Defined.

(** C1. Expanding a node [(v, F)] whose variable is in the network
    considers exactly the members [w] of the Markov blanket of [v] with
    [w ∉ F], each once, and issues for each the support requests of its
    class, in the fixed order: parent, one request with [F ∪ {w}];
    else child, one request with [F ∪ {w} ∪ (parents(w) ∖ {v})]; else
    spouse (no edge between [v] and [w] either way), one request per
    shared child [k] with [F ∪ {w, k}].  [_expand] is the sequence of
    [_add_support] calls on these requests. *)
Theorem expand_issues_support_requests (fuel : nat) (bn : network)
    (st : build_state) (v : string) (F : gset string) :
  v ∈ bn_nodes bn →
  (∃ mb, get_markov_blanket bn v = Ok mb
         ∧ NoDup (candidates bn v F)
         ∧ ∀ w, w ∈ candidates bn v F ↔ w ∈ mb ∧ w ∉ F)
  ∧ (∀ w f_new, (w, f_new) ∈ support_requests bn (v, F) ↔
       w ∈ candidates bn v F ∧ f_new ∈ classify bn v F w)
  ∧ (∀ w,
       ((w, v) ∈ bn_edges bn → classify bn v F w = [F ∪ {[w]}])
       ∧ ((w, v) ∉ bn_edges bn → (v, w) ∈ bn_edges bn →
          classify bn v F w = [F ∪ {[w]} ∪ (pred_set bn w ∖ {[v]})])
       ∧ ((w, v) ∉ bn_edges bn → (v, w) ∉ bn_edges bn →
          classify bn v F w
          = (λ k, F ∪ {[w; k]}) <$> elements (succ_set bn v ∩ succ_set bn w)))
  ∧ _expand (S fuel) bn st (v, F)
    = foldM (λ t r, _add_support (_expand fuel bn) t (v, F) r.1 r.2)
            (f_sets_set st (v, F) F) (support_requests bn (v, F)).
Proof.
  intros Hv. split_and!.
  - exists (markov_blanket_spec bn v). split_and!.
    + by apply get_markov_blanket_member.
    + apply NoDup_candidates.
    + intros w. apply elem_of_candidates.
  - intros w f_new. rewrite elem_of_support_requests, elem_of_candidates.
    simpl. tauto.
  - intros w. apply classify_cases.
  - by apply (_expand_requests fuel bn st (v, F)).
Qed.

Lemma expand_issues_support_requests_witness :
  "Crime" ∈ bn_nodes bn_crime
  ∧ _expand 1 bn_crime {| sg := empty_graph; f_sets := ∅ |} ("Crime", {["Crime"]})
    = foldM (λ t r, _add_support (_expand 0 bn_crime) t ("Crime", {["Crime"]}) r.1 r.2)
            (f_sets_set {| sg := empty_graph; f_sets := ∅ |}
               ("Crime", {["Crime"]}) {["Crime"]})
            (support_requests bn_crime ("Crime", {["Crime"]})).
Proof.
  assert (H : "Crime" ∈ bn_nodes bn_crime) by by_evaluation.
  split; [exact H|].
  exact (proj2 (proj2 (proj2 (expand_issues_support_requests 0 bn_crime
    {| sg := empty_graph; f_sets := ∅ |} "Crime" {["Crime"]} H)))).
Defined.

(** C2. In a graph returned by [create_support_graph], every edge
    [(J, I)] has forbidden-set(I) ∪ {variable(J)} ⊆ forbidden-set(J)
    with variable(J) ∉ forbidden-set(I), so forbidden-set(I) is a
    strict subset of forbidden-set(J); the same strict growth holds
    along every directed path. *)
Theorem forbidden_sets_grow_along_edges (fuel : nat) (bn : network)
    (r : string) (G : SupportGraph) :
  create_support_graph fuel bn r = Ok G →
  (∀ J I, (J, I) ∈ sg_edges G →
     I.2 ∪ {[J.1]} ⊆ J.2 ∧ (J.1 ∉ I.2) ∧ I.2 ⊂ J.2)
  ∧ (∀ J I, tc (sg_edge G) J I → I.2 ⊂ J.2).
Proof.
  intros HG%create_support_graph_inv.
  assert (Hedge : ∀ J I, (J, I) ∈ sg_edges G →
            I.2 ∪ {[J.1]} ⊆ J.2 ∧ (J.1 ∉ I.2) ∧ I.2 ⊂ J.2).
  { intros J I [Hsub Hnot]%(inv_edge_grows _ _ HG). split_and!; [done..|].
    split; [set_solver|]. intros Hback. apply Hnot, Hback. set_solver. }
  split; [done|].
  intros J I Hpath. induction Hpath as [J I He|J K I He _ IH].
  - by apply Hedge.
  - apply Hedge in He as (_ & _ & HKJ). set_solver.
Qed.

Lemma forbidden_sets_grow_along_edges_witness :
  create_support_graph 4 bn_crime "Crime" = Ok sg_crime
  ∧ (∀ J I, (J, I) ∈ sg_edges sg_crime →
       I.2 ∪ {[J.1]} ⊆ J.2 ∧ (J.1 ∉ I.2) ∧ I.2 ⊂ J.2)
  ∧ (∀ J I, tc (sg_edge sg_crime) J I → I.2 ⊂ J.2).
Proof.
  split; [exact create_crime|].
  exact (forbidden_sets_grow_along_edges 4 bn_crime "Crime" sg_crime create_crime).
Defined.

(** C4. The graph returned by [create_support_graph] holds the root
    node (root, {root}), labelled root with forbidden set {root}; the
    root has no outgoing edge and every other node has one. *)
Theorem root_is_unique_sink (fuel : nat) (bn : network) (r : string)
    (G : SupportGraph) :
  create_support_graph fuel bn r = Ok G →
  sg_nodes G !! (r, {[r]}) = Some {| label := r; f_set := {[r]} |}
  ∧ (∀ m, ((r, {[r]}), m) ∉ sg_edges G)
  ∧ (∀ n, n ∈ dom (sg_nodes G) → n ≠ (r, {[r]}) → ∃ m, (n, m) ∈ sg_edges G).
Proof.
  intros HG%create_support_graph_inv. split_and!.
  - pose proof (inv_root _ _ HG) as [[lbl fs] Ha]%elem_of_dom.
    destruct (inv_attrs _ _ HG _ _ Ha) as [Hl Hf]. simpl in *. by subst.
  - intros m He.
    destruct (inv_edges_closed _ _ HG _ _ He) as [_ Hm].
    apply (inv_var_forbidden _ _ HG) in Hm.
    destruct (inv_edge_grows _ _ HG _ _ He) as [Hsub Hnot]. simpl in *.
    apply Hnot. assert (m.1 = r) as <- by set_solver. done.
  - apply (inv_out _ _ HG).
Qed.

Lemma root_is_unique_sink_witness :
  create_support_graph 4 bn_crime "Crime" = Ok sg_crime
  ∧ sg_nodes sg_crime !! ("Crime", {["Crime"]})
    = Some {| label := "Crime"; f_set := {["Crime"]} |}
  ∧ (∀ m, (("Crime", {["Crime"]}), m) ∉ sg_edges sg_crime)
  ∧ (∀ n, n ∈ dom (sg_nodes sg_crime) → n ≠ ("Crime", {["Crime"]}) →
          ∃ m, (n, m) ∈ sg_edges sg_crime).
Proof.
  split; [exact create_crime|].
  exact (root_is_unique_sink 4 bn_crime "Crime" sg_crime create_crime).
Defined.

(** C10. In a graph returned by [create_support_graph], every node has
    a directed path of supporter→supported edges to the root node, and
    every edge joins two nodes of the graph. *)
Theorem every_node_reaches_root (fuel : nat) (bn : network) (r : string)
    (G : SupportGraph) :
  create_support_graph fuel bn r = Ok G →
  (∀ n, n ∈ dom (sg_nodes G) → rtc (sg_edge G) n (r, {[r]}))
  ∧ graph_closed G.
Proof.
  intros HG%create_support_graph_inv. split.
  - apply (inv_path _ _ HG).
  - intros [a b] He. simpl. by apply (inv_edges_closed _ _ HG).
Qed.

Lemma every_node_reaches_root_witness :
  create_support_graph 4 bn_crime "Crime" = Ok sg_crime
  ∧ (∀ n, n ∈ dom (sg_nodes sg_crime) →
          rtc (sg_edge sg_crime) n ("Crime", {["Crime"]})).
Proof.
  split; [exact create_crime|].
  exact (proj1 (every_node_reaches_root 4 bn_crime "Crime" sg_crime create_crime)).
Defined.

(** C9. For a root variable in the network, [create_support_graph]
    returns a graph as soon as the depth budget reaches the number of
    variables, and the same graph for every larger budget.  The two
    reasons: every support request of a node carries a forbidden set
    strictly larger than the node's, within the finite variable set, so
    nested [_expand] calls are at most as deep as there are variables;
    and a request for a node already in the graph adds at most an edge
    and expands nothing. *)
Theorem create_support_graph_terminates (bn : network) (r : string) :
  r ∈ bn_nodes bn →
  (∃ G, ∀ fuel, size (bn_nodes bn) ≤ fuel →
                create_support_graph fuel bn r = Ok G)
  ∧ (∀ v F w f_new, (w, f_new) ∈ support_requests bn (v, F) →
       w ∈ bn_nodes bn ∧ F ⊂ f_new)
  ∧ (∀ expand st node_i w f_new,
       (w, f_new) ∈ dom (sg_nodes (sg st)) →
       _add_support expand st node_i w f_new
       = Ok (if sg_has_edge (sg st) (w, f_new) node_i then st
             else with_sg st (add_edge (sg st) (w, f_new) node_i))).
Proof.
  intros Hr. split_and!.
  - destruct (_expand_total (size (bn_nodes bn)) bn
      {| sg := add_node empty_graph (r, {[r]}) {| label := r; f_set := {[r]} |};
         f_sets := <[(r, {[r]}) := {[r]}]> ∅ |} (r, {[r]})) as [st Hst].
    + done.
    + simpl. apply subset_size. split; [set_solver|].
      intros Hsub. specialize (Hsub r Hr). set_solver.
    + exists (sg st). intros fuel Hfuel. unfold create_support_graph.
      by rewrite (_expand_fuel_mono _ fuel _ _ _ _ Hfuel Hst).
  - intros v F w f_new (Hw & HwF & Hf%classify_grows)%elem_of_support_requests.
    simpl in *. split; [by eapply markov_blanket_nodes|].
    split; [set_solver|]. intros Hback. apply HwF, Hback. set_solver.
  - intros expand st node_i w f_new Hpresent. unfold _add_support.
    rewrite decide_False by (by intros ?).
    by destruct (sg_has_edge _ _ _).
Qed.

Lemma create_support_graph_terminates_witness :
  "Crime" ∈ bn_nodes bn_crime
  ∧ ∃ G, ∀ fuel, size (bn_nodes bn_crime) ≤ fuel →
                 create_support_graph fuel bn_crime "Crime" = Ok G.
Proof.
  assert (H : "Crime" ∈ bn_nodes bn_crime) by by_evaluation.
  split; [exact H|].
  exact (proj1 (create_support_graph_terminates bn_crime "Crime" H)).
Defined.

(** C3. On a well-formed graph, [prune_support_graph] returns the
    fixed point of the two batch rules: each pass marks every ancestor
    of every evidence-labelled node (rule 1) and every node that is not
    evidence-labelled, has no incoming edge and has an outgoing edge
    (rule 2), removes all marked nodes at once and repeats until a pass
    marks nothing; the rules determine the result.  Evidence names
    that label no node of the graph change nothing. *)
Theorem prune_fixed_point_of_rules (fuel : nat) (G : SupportGraph)
    (E : gset string) :
  graph_closed G → size (sg_nodes G) < fuel →
  ∃ G', prune_support_graph fuel G E = Some G'
        ∧ prune_spec E G G'
        ∧ (∀ G'', prune_spec E G G'' → G'' = G')
        ∧ (∀ n, ¬ rule1 G' E n ∧ ¬ rule2 G' E n)
        ∧ (∀ U : gset string,
             (∀ n a, sg_nodes G !! n = Some a → label a ∉ U) →
             prune_support_graph fuel G (E ∪ U) = Some G').
Proof.
  intros HG Hfuel. unfold prune_support_graph.
  destruct (prune_loop_total fuel E G HG Hfuel) as [G' HG'].
  exists G'. split_and!.
  - done.
  - by eapply prune_loop_spec.
  - intros G'' HG''. eapply prune_spec_functional; [done|].
    by eapply prune_loop_spec.
  - intros n.
    pose proof (elem_of_nodes_to_remove G' E n
                  (prune_loop_closed _ _ _ _ HG HG')) as Hn.
    rewrite (prune_loop_fixed _ _ _ _ HG') in Hn. set_solver.
  - intros U HU. rewrite <-HG'. apply prune_loop_ext.
    intros n a Hn. specialize (HU n a Hn). set_solver.
Qed.

Lemma prune_fixed_point_of_rules_witness :
  graph_closed sg_crime ∧ size (sg_nodes sg_crime) < 6
  ∧ ∃ G', prune_support_graph 6 sg_crime {["DNA_match"]} = Some G'
          ∧ prune_spec {["DNA_match"]} sg_crime G'
          ∧ (∀ G'', prune_spec {["DNA_match"]} sg_crime G'' → G'' = G')
          ∧ (∀ n, ¬ rule1 G' {["DNA_match"]} n ∧ ¬ rule2 G' {["DNA_match"]} n)
          ∧ (∀ U : gset string,
               (∀ n a, sg_nodes sg_crime !! n = Some a → label a ∉ U) →
               prune_support_graph 6 sg_crime ({["DNA_match"]} ∪ U) = Some G').
Proof.
  assert (H : size (sg_nodes sg_crime) < 6) by by_evaluation.
  split_and!; [exact sg_crime_closed|exact H|].
  exact (prune_fixed_point_of_rules 6 sg_crime {["DNA_match"]} sg_crime_closed H).
Defined.

(** C5. Pruning is idempotent: on a well-formed graph the pruner
    returns a graph, and pruning that graph again with the same
    evidence returns it unchanged. *)
Theorem prune_idempotent (fuel : nat) (G : SupportGraph) (E : gset string) :
  graph_closed G → size (sg_nodes G) < fuel →
  ∃ G', prune_support_graph fuel G E = Some G'
        ∧ prune_support_graph fuel G' E = Some G'.
Proof.
  intros HG Hfuel. unfold prune_support_graph.
  destruct (prune_loop_total fuel E G HG Hfuel) as [G' HG'].
  exists G'. split; [done|].
  destruct fuel as [|fuel]; [lia|]. simpl.
  by rewrite decide_True by by eapply prune_loop_fixed.
Qed.

Lemma prune_idempotent_witness :
  graph_closed sg_crime ∧ size (sg_nodes sg_crime) < 6
  ∧ ∃ G', prune_support_graph 6 sg_crime {["DNA_match"]} = Some G'
          ∧ prune_support_graph 6 G' {["DNA_match"]} = Some G'.
Proof.
  assert (H : size (sg_nodes sg_crime) < 6) by by_evaluation.
  split_and!; [exact sg_crime_closed|exact H|].
  exact (prune_idempotent 6 sg_crime {["DNA_match"]} sg_crime_closed H).
Defined.

(** C6. The pruner works on a copy: called on the object at [l], it
    allocates a new object [l'], returns it holding the pruned graph,
    and leaves the object at [l], like every object that existed
    before the call, as it was. *)
Theorem prune_leaves_input_untouched (fuel : nat) (h : gmap loc SupportGraph)
    (l : loc) (G : SupportGraph) (E : gset string) :
  h !! l = Some G → graph_closed G → size (sg_nodes G) < fuel →
  ∃ l' h' G',
    prune_support_graph_at fuel h l E = Some (l', h')
    ∧ (l' ∉ dom h) ∧ l' ≠ l
    ∧ h' !! l = Some G
    ∧ (∀ k, k ≠ l' → h' !! k = h !! k)
    ∧ h' !! l' = Some G'
    ∧ prune_support_graph fuel G E = Some G'.
Proof.
  intros Hl HG Hfuel.
  destruct (prune_loop_total fuel E G HG Hfuel) as [G' HG'].
  assert (Hfresh : fresh (dom h) ∉ dom h) by apply is_fresh.
  assert (Hne : fresh (dom h) ≠ l).
  { intros Heq. apply Hfresh. rewrite Heq. by apply elem_of_dom. }
  exists (fresh (dom h)), (<[fresh (dom h) := G']> h), G'. split_and!.
  - rewrite (prune_support_graph_at_spec _ _ _ _ G) by done.
    unfold prune_support_graph. by rewrite HG'.
  - done.
  - done.
  - by rewrite lookup_insert_ne.
  - intros k Hk. by rewrite lookup_insert_ne.
  - apply lookup_insert_eq.
  - done.
Qed.

Lemma prune_leaves_input_untouched_witness :
  ({[1%positive := sg_crime]} : gmap loc SupportGraph) !! 1%positive = Some sg_crime
  ∧ graph_closed sg_crime ∧ size (sg_nodes sg_crime) < 6
  ∧ ∃ l' h' G',
      prune_support_graph_at 6 {[1%positive := sg_crime]} 1%positive {["DNA_match"]}
      = Some (l', h')
      ∧ (l' ∉ dom ({[1%positive := sg_crime]} : gmap loc SupportGraph))
      ∧ l' ≠ 1%positive
      ∧ h' !! 1%positive = Some sg_crime
      ∧ (∀ k, k ≠ l' →
           h' !! k = ({[1%positive := sg_crime]} : gmap loc SupportGraph) !! k)
      ∧ h' !! l' = Some G'
      ∧ prune_support_graph 6 sg_crime {["DNA_match"]} = Some G'.
Proof.
  assert (Hl : ({[1%positive := sg_crime]} : gmap loc SupportGraph) !! 1%positive
               = Some sg_crime) by reflexivity.
  assert (H : size (sg_nodes sg_crime) < 6) by by_evaluation.
  split_and!; [exact Hl|exact sg_crime_closed|exact H|].
  exact (prune_leaves_input_untouched 6 {[1%positive := sg_crime]} 1%positive
           sg_crime {["DNA_match"]} Hl sg_crime_closed H).
Defined.

(** * Further properties of the code *)

(** ** The Markov blanket *)

Lemma get_markov_blanket_Ok (bn : network) (v : string) (A : gset string) :
  get_markov_blanket bn v = Ok A →
  v ∈ bn_nodes bn ∧ A = markov_blanket_spec bn v.
Proof.
  destruct (decide (v ∈ bn_nodes bn)) as [Hv|Hv].
  - rewrite get_markov_blanket_member by done. by intros [= <-].
  - by rewrite get_markov_blanket_missing.
Qed.

(** X1. Membership in a Markov blanket is symmetric: [w] is in the
    blanket returned for [v] exactly when [v] is in the blanket
    returned for [w]. *)
Theorem markov_blanket_symmetric (bn : network) (v w : string)
    (A B : gset string) :
  get_markov_blanket bn v = Ok A →
  get_markov_blanket bn w = Ok B →
  w ∈ A ↔ v ∈ B.
Proof.
  intros [_ ->]%get_markov_blanket_Ok [_ ->]%get_markov_blanket_Ok.
  rewrite !elem_of_markov_blanket_spec. naive_solver.
Qed.

Lemma markov_blanket_symmetric_witness :
  get_markov_blanket bn_crime "Crime" = Ok (markov_blanket_spec bn_crime "Crime")
  ∧ get_markov_blanket bn_crime "Twin" = Ok (markov_blanket_spec bn_crime "Twin")
  ∧ ("Twin" ∈ markov_blanket_spec bn_crime "Crime"
     ↔ "Crime" ∈ markov_blanket_spec bn_crime "Twin").
Proof.
  assert (H1 : get_markov_blanket bn_crime "Crime"
               = Ok (markov_blanket_spec bn_crime "Crime")).
  { apply get_markov_blanket_member. by_evaluation. }
  assert (H2 : get_markov_blanket bn_crime "Twin"
               = Ok (markov_blanket_spec bn_crime "Twin")).
  { apply get_markov_blanket_member. by_evaluation. }
  split_and!; [exact H1|exact H2|].
  exact (markov_blanket_symmetric bn_crime "Crime" "Twin" _ _ H1 H2).
Defined.

(** X2. A returned Markov blanket never holds the variable itself and
    holds only variables of the network. *)
Theorem markov_blanket_excludes_self (bn : network) (v : string)
    (A : gset string) :
  get_markov_blanket bn v = Ok A →
  (v ∉ A) ∧ A ⊆ bn_nodes bn.
Proof.
  intros [_ ->]%get_markov_blanket_Ok. split.
  - intros [Hne _]%elem_of_markov_blanket_spec. done.
  - intros w Hw. by eapply markov_blanket_nodes.
Qed.

Lemma markov_blanket_excludes_self_witness :
  get_markov_blanket bn_crime "Crime" = Ok (markov_blanket_spec bn_crime "Crime")
  ∧ ("Crime" ∉ markov_blanket_spec bn_crime "Crime")
  ∧ markov_blanket_spec bn_crime "Crime" ⊆ bn_nodes bn_crime.
Proof.
  assert (H1 : get_markov_blanket bn_crime "Crime"
               = Ok (markov_blanket_spec bn_crime "Crime")).
  { apply get_markov_blanket_member. by_evaluation. }
  split; [exact H1|].
  exact (markov_blanket_excludes_self bn_crime "Crime" _ H1).
Defined.

(** X3. A root variable of the network without parents and without
    children gives the graph of one node, the root, and no edge, at any
    positive depth budget. *)
Theorem isolated_root_single_node (bn : network) (r : string) (fuel : nat) :
  r ∈ bn_nodes bn →
  (∀ u, (u, r) ∉ bn_edges bn) → (∀ u, (r, u) ∉ bn_edges bn) →
  create_support_graph (S fuel) bn r
  = Ok {| sg_nodes := {[(r, {[r]}) := {| label := r; f_set := {[r]} |}]};
          sg_edges := ∅ |}.
Proof.
  intros Hr Hin Hout. unfold create_support_graph.
  rewrite _expand_requests by done.
  assert (markov_blanket_spec bn r = ∅) as Hmb.
  { apply set_eq. intros w. rewrite elem_of_markov_blanket_spec. split.
    - intros [_ [H|[H|(c & H & _)]]]; [by apply Hin in H|by apply Hout in H..].
    - by intros ?%not_elem_of_empty. }
  unfold support_requests, candidates. simpl. rewrite Hmb, elements_empty.
  simpl. unfold add_node. simpl. by rewrite insert_empty.
Qed.

Lemma isolated_root_single_node_witness :
  "X" ∈ bn_nodes {| bn_added := {["X"]}; bn_edges := ∅ |}
  ∧ create_support_graph 1 {| bn_added := {["X"]}; bn_edges := ∅ |} "X"
    = Ok {| sg_nodes := {[("X", {["X"]}) := {| label := "X"; f_set := {["X"]} |}]};
            sg_edges := ∅ |}.
Proof.
  assert (H : "X" ∈ bn_nodes {| bn_added := {["X"]}; bn_edges := ∅ |})
    by by_evaluation.
  split; [exact H|].
  apply (isolated_root_single_node {| bn_added := {["X"]}; bn_edges := ∅ |} "X" 0 H);
    intros u; simpl; apply not_elem_of_empty.
Defined.

(** ** Expansion only adds *)

Lemma graph_extends_refl (g : SupportGraph) : graph_extends g g.
Proof. by split. Qed.

Lemma graph_extends_trans (g1 g2 g3 : SupportGraph) :
  graph_extends g1 g2 → graph_extends g2 g3 → graph_extends g1 g3.
Proof. intros [Hn1 He1] [Hn2 He2]. split; by etrans. Qed.

Lemma graph_extends_add_edge (g : SupportGraph) (u v : snode) :
  graph_extends g (add_edge g u v).
Proof. split; simpl; [done|set_solver]. Qed.

Lemma graph_extends_add_node (g : SupportGraph) (n : snode) (a : attrs) :
  n ∉ dom (sg_nodes g) → graph_extends g (add_node g n a).
Proof.
  intros Hn. split; simpl; [|done]. by apply insert_subseteq, not_elem_of_dom.
Qed.


Lemma _add_support_extends (expand : build_state → snode → result build_state) :
  (∀ st n st', expand st n = Ok st' → graph_extends (sg st) (sg st')) →
  ∀ st i w f st',
    _add_support expand st i w f = Ok st' → graph_extends (sg st) (sg st').
Proof.
  intros Hexp st i w f st'. unfold _add_support.
  destruct (decide _) as [Hnew|Hold].
  - intros Hrec%Hexp. simpl in Hrec.
    eapply graph_extends_trans; [|exact Hrec].
    eapply graph_extends_trans; [by apply graph_extends_add_node|].
    apply graph_extends_add_edge.
  - destruct (negb _); intros [= <-]; simpl.
    + apply graph_extends_add_edge.
    + apply graph_extends_refl.
Qed.

Lemma _expand_extends (fuel : nat) (bn : network) :
  ∀ st n st', _expand fuel bn st n = Ok st' → graph_extends (sg st) (sg st').
Proof.
  induction fuel as [|fuel IH]; intros st n st'; [done|].
  destruct (decide (n.1 ∈ bn_nodes bn)) as [Hv|Hv];
    [|by rewrite _expand_missing].
  rewrite _expand_requests by done.
  apply (foldM_invariant (λ t, graph_extends (sg st) (sg t))).
  - apply graph_extends_refl.
  - intros [w f] t t' _ Ht Hadd. simpl in Hadd.
    eapply graph_extends_trans; [exact Ht|].
    by eapply _add_support_extends.
Qed.

(** After a request for [(w, f)] into [i] the supporter is a node and
    its edge is there. *)
Lemma _add_support_present (fuel : nat) (bn : network) (st : build_state)
    (i : snode) (w : string) (f : gset string) (st' : build_state) :
  _add_support (_expand fuel bn) st i w f = Ok st' →
  (w, f) ∈ dom (sg_nodes (sg st')) ∧ ((w, f), i) ∈ sg_edges (sg st').
Proof.
  unfold _add_support. destruct (decide _) as [Hnew|Hold%dec_stable].
  - intros Hrec. apply _expand_extends in Hrec as [Hn He]. simpl in *. split.
    + apply elem_of_dom. eexists. eapply lookup_weaken; [|exact Hn].
      apply lookup_insert_eq.
    + apply He. set_solver.
  - unfold sg_has_edge. destruct (bool_decide _) eqn:Hedge; simpl; intros [= <-].
    + by apply bool_decide_eq_true in Hedge.
    + simpl. set_solver.
Qed.

(** X8. [_expand] only adds to the graph: a node that was there keeps
    its attributes, an edge that was there stays, and on return the
    expanded node is registered in [f_sets] with its own forbidden
    set. *)
Theorem expand_only_adds (fuel : nat) (bn : network) (st : build_state)
    (n : snode) (st' : build_state) :
  _expand fuel bn st n = Ok st' →
  (∀ m a, sg_nodes (sg st) !! m = Some a → sg_nodes (sg st') !! m = Some a)
  ∧ sg_edges (sg st) ⊆ sg_edges (sg st')
  ∧ f_sets st' !! n = Some n.2.
Proof.
  intros Hexp. split_and!.
  - intros m a Hm. apply _expand_extends in Hexp as [Hn _].
    by eapply lookup_weaken.
  - by apply _expand_extends in Hexp as [_ He].
  - destruct fuel as [|fuel]; [done|]. simpl in Hexp.
    apply bind_Ok in Hexp as (mb & [Hv ->]%get_markov_blanket_Ok & Hloop).
    revert Hloop. apply (foldM_invariant (λ t, registered t n)).
    + apply registered_self.
    + intros w t t' Hw%elem_of_elements%markov_blanket_nodes Ht.
      assert (Hstable : ∀ u i w' f u' m,
                _add_support (_expand fuel bn) u i w' f = Ok u' →
                registered u m → registered u' m).
      { apply _add_support_stable, _expand_stable. }
      rewrite (expand_candidate_requests _ Hstable) by done.
      intros Hreq. by eapply (requests_loop_stable _ Hstable).
Qed.

Lemma expand_only_adds_witness :
  ∃ st',
    _expand 3 bn_crime st_crime ("Crime", {["Crime"]}) = Ok st'
    ∧ (∀ m a, sg_nodes (sg st_crime) !! m = Some a →
              sg_nodes (sg st') !! m = Some a)
    ∧ sg_edges (sg st_crime) ⊆ sg_edges (sg st')
    ∧ f_sets st' !! ("Crime", {["Crime"]}) = Some {["Crime"]}.
Proof.
  assert (Hok : is_ok (_expand 3 bn_crime st_crime ("Crime", {["Crime"]})) = true)
    by (vm_compute; reflexivity).
  destruct (_expand 3 bn_crime st_crime ("Crime", {["Crime"]}))
    as [st'|e] eqn:H; [|discriminate Hok].
  exists st'. split; [reflexivity|].
  exact (expand_only_adds 3 bn_crime st_crime ("Crime", {["Crime"]}) st' H).
Defined.

(** X9. A support request that succeeded is answered for good: asking
    again for the same supporter of the same node, with any expansion
    routine, leaves the state as it is. *)
Theorem add_support_twice (fuel : nat) (bn : network) (st : build_state)
    (i : snode) (w : string) (f : gset string) (st' : build_state)
    (expand : build_state → snode → result build_state) :
  _add_support (_expand fuel bn) st i w f = Ok st' →
  _add_support expand st' i w f = Ok st'.
Proof.
  intros Hadd. apply _add_support_present in Hadd as [Hn He].
  unfold _add_support.
  rewrite decide_False by (by intros ?).
  unfold sg_has_edge. by rewrite bool_decide_eq_true_2.
Qed.

Lemma add_support_twice_witness :
  ∃ st',
    _add_support (_expand 2 bn_crime) st_crime
      ("Crime", {["Crime"]}) "Motive" {["Crime"; "Motive"]} = Ok st'
    ∧ _add_support (_expand 0 bn_crime) st'
        ("Crime", {["Crime"]}) "Motive" {["Crime"; "Motive"]} = Ok st'.
Proof.
  assert (Hok : is_ok (_add_support (_expand 2 bn_crime) st_crime
                         ("Crime", {["Crime"]}) "Motive" {["Crime"; "Motive"]})
                = true) by (vm_compute; reflexivity).
  destruct (_add_support (_expand 2 bn_crime) st_crime
              ("Crime", {["Crime"]}) "Motive" {["Crime"; "Motive"]})
    as [st'|e] eqn:H; [|discriminate Hok].
  exists st'. split; [reflexivity|].
  exact (add_support_twice 2 bn_crime st_crime ("Crime", {["Crime"]}) "Motive"
           {["Crime"; "Motive"]} st' (_expand 0 bn_crime) H).
Defined.

(** ** The nodes and edges of the built graph *)


Section built_graph.
Variable bn : network.

(** Whatever holds of the nodes present and of the expanded node, and
    passes from a node to the nodes it requests, holds of every node
    when the expansion returns. *)
Lemma _expand_nodes_ind (P : snode → Prop) (fuel : nat) :
  (∀ i j, P i → j ∈ support_requests bn i → P j) →
  ∀ st n st',
    (∀ m, m ∈ dom (sg_nodes (sg st)) → P m) → P n →
    _expand fuel bn st n = Ok st' →
    ∀ m, m ∈ dom (sg_nodes (sg st')) → P m.
Proof.
  intros HP. induction fuel as [|fuel IH]; intros st n st' Hst Hn; [done|].
  destruct (decide (n.1 ∈ bn_nodes bn)) as [Hv|Hv];
    [|by rewrite _expand_missing].
  rewrite _expand_requests by done.
  apply (foldM_invariant (λ t, ∀ m, m ∈ dom (sg_nodes (sg t)) → P m)); [done|].
  intros [w f] t t' Hreq Ht. simpl. unfold _add_support.
  destruct (decide _) as [Hnew|Hold].
  - apply IH; [|by eapply HP]. simpl. intros m.
    rewrite dom_insert_L. intros [->%elem_of_singleton|Hm]%elem_of_union.
    + by eapply HP.
    + by apply Ht.
  - destruct (negb _); by intros [= <-].
Qed.



End built_graph.

Lemma create_support_graph_Ok (fuel : nat) (bn : network) (r : string)
    (G : SupportGraph) :
  create_support_graph fuel bn r = Ok G →
  r ∈ bn_nodes bn
  ∧ ∃ st, _expand fuel bn
            {| sg := add_node empty_graph (r, {[r]}) {| label := r; f_set := {[r]} |};
               f_sets := <[(r, {[r]}) := {[r]}]> ∅ |} (r, {[r]}) = Ok st
          ∧ G = sg st.
Proof.
  unfold create_support_graph. intros (st & Hexp & [= <-])%bind_Ok. split.
  - destruct fuel as [|fuel]; [done|].
    destruct (decide (r ∈ bn_nodes bn)) as [Hr|Hr]; [done|].
    by rewrite _expand_missing in Hexp.
  - by exists st.
Qed.

Lemma classify_nodes (bn : network) (v w : string) (F f : gset string) :
  f ∈ classify bn v F w → F ⊆ bn_nodes bn → w ∈ bn_nodes bn →
  f ⊆ bn_nodes bn.
Proof.
  unfold classify. intros Hf HF Hw. repeat case_decide.
  - apply list_elem_of_singleton in Hf as ->. set_solver.
  - apply list_elem_of_singleton in Hf as ->.
    assert (pred_set bn w ⊆ bn_nodes bn).
    { intros u Hu%elem_of_pred_set. by eapply edge_source_node. }
    set_solver.
  - apply list_elem_of_fmap in Hf as (k & -> & Hk%elem_of_elements).
    assert (k ∈ bn_nodes bn).
    { apply elem_of_intersection in Hk as [Hk%elem_of_succ_set _].
      by eapply edge_target_node. }
    set_solver.
  - by apply elem_of_nil in Hf.
Qed.

Lemma graph_inv_path_grows (root : snode) (g : SupportGraph) (a b : snode) :
  graph_inv root g → tc (sg_edge g) a b → b.2 ⊂ a.2.
Proof.
  intros Hg Hpath.
  assert (Hedge : ∀ j i, sg_edge g j i → i.2 ⊂ j.2).
  { intros j i [Hsub Hnot]%(inv_edge_grows _ _ Hg).
    split; [set_solver|]. intros Hback. apply Hnot, Hback. set_solver. }
  induction Hpath as [a b He|a k b He _ IH]; [by apply Hedge|].
  apply Hedge in He. set_solver.
Qed.



(** X5. In a built graph the forbidden set of every node holds the
    node's own variable and the root variable, and names only variables
    of the network, as does the node. *)
Theorem built_node_forbidden_set (fuel : nat) (bn : network) (r : string)
    (G : SupportGraph) :
  create_support_graph fuel bn r = Ok G →
  ∀ n, n ∈ dom (sg_nodes G) →
       n.1 ∈ n.2 ∧ r ∈ n.2 ∧ n.1 ∈ bn_nodes bn ∧ n.2 ⊆ bn_nodes bn.
Proof.
  intros (Hr & st & Hexp & ->)%create_support_graph_Ok.
  set (P := λ n : snode,
         n.1 ∈ n.2 ∧ r ∈ n.2 ∧ n.1 ∈ bn_nodes bn ∧ n.2 ⊆ bn_nodes bn).
  assert (Hroot : P (r, {[r]})).
  { unfold P. simpl. set_solver. }
  revert Hexp. apply (_expand_nodes_ind bn P).
  - intros i [w f] (Hi & Hri & Hiv & HiF)
      (Hw%markov_blanket_nodes & _ & Hf)%elem_of_support_requests.
    unfold P. simpl. split_and!; [..|by eapply classify_nodes]; try done;
      apply classify_grows in Hf; set_solver.
  - simpl. intros m. rewrite dom_insert_L, dom_empty_L.
    intros Hm. assert (m = (r, {[r]})) as -> by set_solver. done.
  - done.
Qed.

Lemma built_node_forbidden_set_witness :
  create_support_graph 4 bn_crime "Crime" = Ok sg_crime
  ∧ ∀ n, n ∈ dom (sg_nodes sg_crime) →
         n.1 ∈ n.2 ∧ "Crime" ∈ n.2 ∧ n.1 ∈ bn_nodes bn_crime
         ∧ n.2 ⊆ bn_nodes bn_crime.
Proof.
  split; [exact create_crime|].
  exact (built_node_forbidden_set 4 bn_crime "Crime" sg_crime create_crime).
Defined.

(** X6. A built graph is acyclic: no node has an edge to itself or any
    longer directed path back to itself. *)
Theorem built_graph_acyclic (fuel : nat) (bn : network) (r : string)
    (G : SupportGraph) :
  create_support_graph fuel bn r = Ok G →
  ∀ n, ¬ tc (sg_edge G) n n.
Proof.
  intros HG%create_support_graph_inv n Hcycle.
  apply (graph_inv_path_grows _ _ _ _ HG) in Hcycle. set_solver.
Qed.

Lemma built_graph_acyclic_witness :
  create_support_graph 4 bn_crime "Crime" = Ok sg_crime
  ∧ ∀ n, ¬ tc (sg_edge sg_crime) n n.
Proof.
  split; [exact create_crime|].
  exact (built_graph_acyclic 4 bn_crime "Crime" sg_crime create_crime).
Defined.



(** ** What pruning keeps *)

Lemma prune_loop_induced (fuel : nat) (E : gset string) :
  ∀ g g', graph_closed g → prune_loop fuel g E = Some g' →
    sg_nodes g' ⊆ sg_nodes g
    ∧ ∀ a b, (a, b) ∈ sg_edges g' ↔
             (a, b) ∈ sg_edges g
             ∧ a ∈ dom (sg_nodes g') ∧ b ∈ dom (sg_nodes g').
Proof.
  induction fuel as [|fuel IH]; intros g g' Hg; simpl; [done|].
  destruct (decide (nodes_to_remove g E = ∅)) as [Hnone|Hsome].
  - intros [= <-]. split; [done|]. intros a b. split; [|tauto].
    intros He. split; [done|]. by apply graph_closed_edge.
  - intros Hloop.
    apply IH in Hloop as [Hsub Hedges]; [|by apply remove_nodes_from_closed].
    assert (Hkept : ∀ a, a ∈ dom (sg_nodes g') →
              (a ∉ elements (nodes_to_remove g E)) ∧ a ∈ dom (sg_nodes g)).
    { intros a [x Ha]%elem_of_dom.
      eapply lookup_weaken in Ha; [|exact Hsub].
      rewrite remove_nodes_from_lookup in Ha.
      case_decide; [done|]. split; [done|]. by apply elem_of_dom. }
    split.
    + etrans; [exact Hsub|]. apply map_subseteq_spec. intros n a.
      rewrite remove_nodes_from_lookup. by case_decide.
    + intros a b. rewrite Hedges, remove_nodes_from_edges by done. split.
      * tauto.
      * intros (He & Ha & Hb). split_and!; try done.
        -- by apply Hkept.
        -- by apply Hkept.
Qed.

Lemma sink_not_marked (g : SupportGraph) (E : gset string) (n : snode) :
  graph_closed g → (∀ m, (n, m) ∉ sg_edges g) → n ∉ nodes_to_remove g E.
Proof.
  intros Hg Hsink [(m & a & _ & _ & _ & Hpath)|(a & _ & _ & _ & s & Hs)]%elem_of_nodes_to_remove;
    [|by apply Hsink in Hs|done].
  destruct Hpath as [n m He|n k m He _]; by apply Hsink in He.
Qed.

Lemma prune_loop_keeps_sink (fuel : nat) (E : gset string) :
  ∀ g g' n a,
    graph_closed g → sg_nodes g !! n = Some a → (∀ m, (n, m) ∉ sg_edges g) →
    prune_loop fuel g E = Some g' → sg_nodes g' !! n = Some a.
Proof.
  induction fuel as [|fuel IH]; intros g g' n a Hg Hn Hsink; simpl; [done|].
  destruct (decide (nodes_to_remove g E = ∅)) as [Hnone|Hsome].
  - by intros [= <-].
  - apply IH.
    + by apply remove_nodes_from_closed.
    + rewrite remove_nodes_from_lookup, decide_False; [done|].
      rewrite elem_of_elements. by apply sink_not_marked.
    + intros m [He _]%remove_nodes_from_edges; [|done]. by apply Hsink in He.
Qed.

Lemma no_edges_nothing_marked (g : SupportGraph) (E : gset string) :
  sg_edges g = ∅ → nodes_to_remove g E = ∅.
Proof.
  intros He. apply set_eq. intros n. split; [|by intros ?%not_elem_of_empty].
  intros Hn. exfalso. revert Hn. apply sink_not_marked.
  - intros e. rewrite He. by intros ?%not_elem_of_empty.
  - intros m. rewrite He. apply not_elem_of_empty.
Qed.

Lemma graph_inv_closed (root : snode) (g : SupportGraph) :
  graph_inv root g → graph_closed g.
Proof. intros Hg [a b] He. simpl. by apply (inv_edges_closed _ _ Hg). Qed.

Lemma graph_inv_root_sink (r : string) (g : SupportGraph) :
  graph_inv (r, {[r]}) g → ∀ m, ((r, {[r]}), m) ∉ sg_edges g.
Proof.
  intros Hg m He.
  destruct (inv_edges_closed _ _ Hg _ _ He) as [_ Hm].
  apply (inv_var_forbidden _ _ Hg) in Hm.
  destruct (inv_edge_grows _ _ Hg _ _ He) as [Hsub Hnot]. simpl in *.
  apply Hnot. assert (m.1 = r) as <- by set_solver. done.
Qed.

Lemma graph_inv_root_attrs (r : string) (g : SupportGraph) :
  graph_inv (r, {[r]}) g →
  sg_nodes g !! (r, {[r]}) = Some {| label := r; f_set := {[r]} |}.
Proof.
  intros Hg. pose proof (inv_root _ _ Hg) as [[lbl fs] Ha]%elem_of_dom.
  destruct (inv_attrs _ _ Hg _ _ Ha) as [Hl Hf]. simpl in *. by subst.
Qed.

Lemma root_graph_eq (r : string) (g : SupportGraph) :
  (∀ n, sg_nodes g !! n
        = if decide (n = (r, {[r]}))
          then Some {| label := r; f_set := {[r]} |} else None) →
  sg_edges g = ∅ →
  g = root_graph r.
Proof.
  intros Hn He. destruct g as [ns es]. unfold root_graph. simpl in *. f_equal.
  - apply map_eq. intros n. rewrite Hn, lookup_singleton. by repeat case_decide.
  - done.
Qed.

(** X10. The pruned graph is an induced subgraph of the input: its
    nodes are nodes of the input with unchanged attributes, and its
    edges are exactly the input's edges between surviving nodes. *)
Theorem prune_induced_subgraph (fuel : nat) (G G' : SupportGraph)
    (E : gset string) :
  graph_closed G →
  prune_support_graph fuel G E = Some G' →
  (∀ n a, sg_nodes G' !! n = Some a → sg_nodes G !! n = Some a)
  ∧ (∀ a b, (a, b) ∈ sg_edges G' ↔
            (a, b) ∈ sg_edges G
            ∧ a ∈ dom (sg_nodes G') ∧ b ∈ dom (sg_nodes G')).
Proof.
  intros HG [Hsub Hedges]%prune_loop_induced; [|done]. split; [|done].
  intros n a Hn. by eapply lookup_weaken.
Qed.

(** X11. Pruning never removes a node without outgoing edges, whatever
    the evidence: such a node is in the result with its attributes. *)
Theorem prune_keeps_sinks (fuel : nat) (G G' : SupportGraph) (E : gset string)
    (n : snode) (a : attrs) :
  graph_closed G →
  prune_support_graph fuel G E = Some G' →
  sg_nodes G !! n = Some a → (∀ m, (n, m) ∉ sg_edges G) →
  sg_nodes G' !! n = Some a.
Proof.
  intros HG Hprune Hn Hsink. by eapply prune_loop_keeps_sink.
Qed.

(** X15. A graph without edges is returned unchanged by the pruner,
    whatever the evidence. *)
Theorem prune_edgeless_unchanged (fuel : nat) (G : SupportGraph)
    (E : gset string) :
  sg_edges G = ∅ → prune_support_graph (S fuel) G E = Some G.
Proof.
  intros He. unfold prune_support_graph. simpl.
  by rewrite decide_True by by apply no_edges_nothing_marked.
Qed.

Lemma prune_crime :
  prune_support_graph 6 sg_crime {["DNA_match"]} = Some pruned_crime.
Proof.
  unfold pruned_crime.
  assert (H : bool_decide (is_Some (prune_support_graph 6 sg_crime {["DNA_match"]}))
              = true) by (vm_compute; reflexivity).
  apply bool_decide_eq_true in H as [g Hg]. by rewrite Hg.
Qed.

Lemma prune_induced_subgraph_witness :
  graph_closed sg_crime
  ∧ prune_support_graph 6 sg_crime {["DNA_match"]} = Some pruned_crime
  ∧ (∀ n a, sg_nodes pruned_crime !! n = Some a → sg_nodes sg_crime !! n = Some a)
  ∧ (∀ a b, (a, b) ∈ sg_edges pruned_crime ↔
            (a, b) ∈ sg_edges sg_crime
            ∧ a ∈ dom (sg_nodes pruned_crime) ∧ b ∈ dom (sg_nodes pruned_crime)).
Proof.
  split_and!; [exact sg_crime_closed|exact prune_crime|..];
    apply (prune_induced_subgraph 6 sg_crime pruned_crime {["DNA_match"]}
             sg_crime_closed prune_crime).
Defined.

Lemma prune_keeps_sinks_witness :
  graph_closed sg_crime
  ∧ prune_support_graph 6 sg_crime {["DNA_match"]} = Some pruned_crime
  ∧ sg_nodes sg_crime !! ("Crime", {["Crime"]})
    = Some {| label := "Crime"; f_set := {["Crime"]} |}
  ∧ (∀ m, (("Crime", {["Crime"]}), m) ∉ sg_edges sg_crime)
  ∧ sg_nodes pruned_crime !! ("Crime", {["Crime"]})
    = Some {| label := "Crime"; f_set := {["Crime"]} |}.
Proof.
  pose proof (create_support_graph_inv _ _ _ _ create_crime) as Hinv.
  pose proof (graph_inv_root_attrs _ _ Hinv) as Hroot.
  pose proof (graph_inv_root_sink _ _ Hinv) as Hsink.
  split_and!; [exact sg_crime_closed|exact prune_crime|exact Hroot|exact Hsink|].
  exact (prune_keeps_sinks 6 sg_crime pruned_crime {["DNA_match"]} _ _
           sg_crime_closed prune_crime Hroot Hsink).
Defined.

Lemma prune_edgeless_unchanged_witness :
  sg_edges (root_graph "X") = ∅
  ∧ prune_support_graph 1 (root_graph "X") {["X"]} = Some (root_graph "X").
Proof.
  assert (H : sg_edges (root_graph "X") = ∅) by reflexivity.
  split; [exact H|].
  exact (prune_edgeless_unchanged 0 (root_graph "X") {["X"]} H).
Defined.

(** ** Pruning a built graph *)

(** X12. The root of a built graph survives pruning on any evidence:
    the pruner returns a graph and the root node is in it with its
    attributes. *)
Theorem prune_keeps_root (fuel : nat) (bn : network) (r : string)
    (G : SupportGraph) (fuel' : nat) (E : gset string) :
  create_support_graph fuel bn r = Ok G →
  size (sg_nodes G) < fuel' →
  ∃ G', prune_support_graph fuel' G E = Some G'
        ∧ sg_nodes G' !! (r, {[r]}) = Some {| label := r; f_set := {[r]} |}.
Proof.
  intros Hinv%create_support_graph_inv Hfuel.
  pose proof (graph_inv_closed _ _ Hinv) as Hclosed.
  destruct (prune_loop_total fuel' E G Hclosed Hfuel) as [G' HG'].
  exists G'. split; [done|].
  eapply prune_loop_keeps_sink; [done| | |exact HG'].
  - by apply graph_inv_root_attrs.
  - by apply graph_inv_root_sink.
Qed.

Lemma prune_keeps_root_witness :
  create_support_graph 4 bn_crime "Crime" = Ok sg_crime
  ∧ size (sg_nodes sg_crime) < 6
  ∧ ∃ G', prune_support_graph 6 sg_crime {["DNA_match"]} = Some G'
          ∧ sg_nodes G' !! ("Crime", {["Crime"]})
            = Some {| label := "Crime"; f_set := {["Crime"]} |}.
Proof.
  assert (H : size (sg_nodes sg_crime) < 6) by by_evaluation.
  split_and!; [exact create_crime|exact H|].
  exact (prune_keeps_root 4 bn_crime "Crime" sg_crime 6 {["DNA_match"]}
           create_crime H).
Defined.

(** X13. When the root variable is itself evidence, pruning a built
    graph leaves the root node alone, with no edge: every other node
    supports the root, directly or through others, and goes in the
    first pass. *)
Theorem prune_root_evidence (fuel : nat) (bn : network) (r : string)
    (G : SupportGraph) (E : gset string) (k : nat) :
  create_support_graph fuel bn r = Ok G →
  r ∈ E →
  prune_support_graph (S (S k)) G E = Some (root_graph r).
Proof.
  intros Hinv%create_support_graph_inv HE.
  pose proof (graph_inv_closed _ _ Hinv) as Hclosed.
  pose proof (graph_inv_root_attrs _ _ Hinv) as Hroot.
  pose proof (graph_inv_root_sink _ _ Hinv) as Hsink.
  assert (Hmarked : ∀ n, n ∈ nodes_to_remove G E ↔
                         n ∈ dom (sg_nodes G) ∧ n ≠ (r, {[r]})).
  { intros n. split.
    - intros Hn. split; [by apply (nodes_to_remove_nodes G E Hclosed)|].
      intros ->. by apply (sink_not_marked G E _ Hclosed Hsink).
    - intros [Hn Hne]. apply elem_of_nodes_to_remove; [done|]. left.
      exists (r, {[r]}), {| label := r; f_set := {[r]} |}.
      split_and!; [done..|].
      apply (inv_path _ _ Hinv) in Hn. apply rtc_tc in Hn as [?|?]; done. }
  unfold prune_support_graph.
  change (prune_loop (S (S k)) G E)
    with (if decide (nodes_to_remove G E = ∅) then Some G
          else prune_loop (S k)
                 (remove_nodes_from G (elements (nodes_to_remove G E))) E).
  destruct (decide (nodes_to_remove G E = ∅)) as [Hnone|Hsome].
  - f_equal. apply root_graph_eq.
    + intros n. case_decide as Hn; [by subst|].
      apply not_elem_of_dom. intros Hdom.
      assert (n ∈ nodes_to_remove G E) as Hin by by apply Hmarked.
      rewrite Hnone in Hin. by apply not_elem_of_empty in Hin.
    + apply set_eq. intros [a b]. split; [|by intros ?%not_elem_of_empty].
      intros He. exfalso.
      destruct (graph_closed_edge _ _ _ Hclosed He) as [Ha _].
      destruct (decide (a = (r, {[r]}))) as [->|Hne]; [by apply Hsink in He|].
      assert (a ∈ nodes_to_remove G E) as Hin by by apply Hmarked.
      rewrite Hnone in Hin. by apply not_elem_of_empty in Hin.
  - assert (remove_nodes_from G (elements (nodes_to_remove G E)) = root_graph r)
      as ->.
    { apply root_graph_eq.
      - intros n. rewrite remove_nodes_from_lookup.
        case_decide as Hin; rewrite elem_of_elements, Hmarked in Hin.
        + rewrite decide_False; [done|]. by destruct Hin.
        + case_decide as Hn; [by subst|].
          apply not_elem_of_dom. intros Hdom. by apply Hin.
      - apply set_eq. intros [a b]. split; [|by intros ?%not_elem_of_empty].
        intros (He & Ha & _)%remove_nodes_from_edges; [|done]. exfalso.
        rewrite elem_of_elements, Hmarked in Ha.
        destruct (graph_closed_edge _ _ _ Hclosed He) as [Hda _].
        destruct (decide (a = (r, {[r]}))) as [->|Hne]; [by apply Hsink in He|].
        by apply Ha. }
    simpl. by rewrite decide_True by by apply no_edges_nothing_marked.
Qed.

Lemma prune_root_evidence_witness :
  create_support_graph 4 bn_crime "Crime" = Ok sg_crime
  ∧ "Crime" ∈ ({["Crime"; "Twin"]} : gset string)
  ∧ prune_support_graph 2 sg_crime {["Crime"; "Twin"]} = Some (root_graph "Crime").
Proof.
  assert (H : "Crime" ∈ ({["Crime"; "Twin"]} : gset string)) by by_evaluation.
  split_and!; [exact create_crime|exact H|].
  exact (prune_root_evidence 4 bn_crime "Crime" sg_crime {["Crime"; "Twin"]} 0
           create_crime H).
Defined.

(** Without evidence a pass removes only nodes without incoming edges,
    so a surviving node keeps all its outgoing edges. *)
Lemma prune_loop_no_evidence_out (fuel : nat) :
  ∀ g g', graph_closed g → prune_loop fuel g ∅ = Some g' →
    ∀ n m, n ∈ dom (sg_nodes g') → (n, m) ∈ sg_edges g →
           m ∈ dom (sg_nodes g').
Proof.
  induction fuel as [|fuel IH]; intros g g' Hg; simpl; [done|].
  destruct (decide (nodes_to_remove g ∅ = ∅)) as [Hnone|Hsome].
  - intros [= <-] n m _ He. by apply (graph_closed_edge _ _ _ Hg He).
  - intros Hloop n m Hn He.
    pose proof (remove_nodes_from_closed g (elements (nodes_to_remove g ∅)) Hg)
      as Hg1.
    destruct (prune_loop_induced _ _ _ _ Hg1 Hloop) as [Hsub _].
    eapply (IH _ _ Hg1 Hloop n m Hn).
    apply remove_nodes_from_edges; [done|]. split_and!; [done|..].
    + intros Hin. apply elem_of_dom in Hn as [x Hx].
      eapply lookup_weaken in Hx; [|exact Hsub].
      rewrite remove_nodes_from_lookup, decide_True in Hx; done.
    + rewrite elem_of_elements.
      intros [(m' & a & _ & []%not_elem_of_empty & _)|(a & _ & _ & Hin & _)]%elem_of_nodes_to_remove;
        [|done].
      by apply Hin in He.
Qed.

(** X14. Without evidence, pruning a built graph leaves the root node
    alone, with no edge. *)
Theorem prune_no_evidence (fuel : nat) (bn : network) (r : string)
    (G : SupportGraph) (fuel' : nat) :
  create_support_graph fuel bn r = Ok G →
  size (sg_nodes G) < fuel' →
  prune_support_graph fuel' G ∅ = Some (root_graph r).
Proof.
  intros Hinv%create_support_graph_inv Hfuel.
  pose proof (graph_inv_closed _ _ Hinv) as Hclosed.
  pose proof (graph_inv_root_attrs _ _ Hinv) as Hroot.
  pose proof (graph_inv_root_sink _ _ Hinv) as Hsink.
  unfold prune_support_graph.
  destruct (prune_loop_total fuel' ∅ G Hclosed Hfuel) as [G' HG'].
  rewrite HG'. f_equal.
  destruct (prune_loop_induced _ _ _ _ Hclosed HG') as [Hsub Hedges].
  pose proof (prune_loop_keeps_sink _ _ _ _ _ _ Hclosed Hroot Hsink HG') as Hroot'.
  pose proof (prune_loop_fixed _ _ _ _ HG') as Hfixed.
  pose proof (prune_loop_closed _ _ _ _ Hclosed HG') as Hclosed'.
  pose proof (prune_loop_no_evidence_out _ _ _ Hclosed HG') as Hout.
  set (R := λ a b : snode, size b.2 < size a.2).
  assert (Transitive R) as HRtrans by (intros x y z; unfold R; lia).
  assert (∀ x y, Decision (R x y)) as HRdec by (intros x y; unfold R; apply _).
  assert (dom (sg_nodes G') ∖ {[(r, {[r]})]} = ∅) as Hrest.
  { destruct (decide (dom (sg_nodes G') ∖ {[(r, {[r]})]} = ∅)) as [|Hne]; [done|].
    exfalso.
    apply (minimal_exists_elem_of_L R) in Hne as (n & Hn & Hmin).
    apply elem_of_difference in Hn as [Hn Hnr]. rewrite not_elem_of_singleton in Hnr.
    assert (Hn0 : n ∈ dom (sg_nodes G)) by by eapply subseteq_dom.
    destruct (inv_out _ _ Hinv n Hn0 Hnr) as [m Hm].
    assert (Hm' : (n, m) ∈ sg_edges G').
    { apply Hedges. split_and!; [done..|]. by eapply Hout. }
    destruct (set_choose_or_empty (sg_predecessors G' n)) as [[p Hp]|Hnop].
    - apply elem_of_sg_predecessors in Hp.
      destruct (graph_closed_edge _ _ _ Hclosed' Hp) as [Hpd _].
      apply Hedges in Hp as (Hp & _ & _).
      assert (p ≠ (r, {[r]})) as Hpr by (intros ->; by apply Hsink in Hp).
      assert (R p n) as HR.
      { unfold R. apply subset_size.
        apply (graph_inv_path_grows _ _ _ _ Hinv). by apply tc_once. }
      assert (R n p) as HR'.
      { apply (Hmin p); [|done]. set_solver. }
      unfold R in *. lia.
    - assert (n ∈ nodes_to_remove G' ∅) as Hin.
      { apply elem_of_nodes_to_remove; [done|]. right.
        apply elem_of_dom in Hn as [a Ha]. exists a. split_and!; [done| | |].
        - apply not_elem_of_empty.
        - intros p Hp. apply elem_of_sg_predecessors in Hp. by apply Hnop in Hp.
        - by exists m. }
      rewrite Hfixed in Hin. by apply not_elem_of_empty in Hin. }
  apply root_graph_eq.
  - intros n. case_decide as Hn; [by subst|].
    apply not_elem_of_dom. intros Hdom.
    assert (n ∈ dom (sg_nodes G') ∖ {[(r, {[r]})]}) as Hin by set_solver.
    rewrite Hrest in Hin. by apply not_elem_of_empty in Hin.
  - apply set_eq. intros [a b]. split; [|by intros ?%not_elem_of_empty].
    intros (He & Ha & _)%Hedges. exfalso.
    destruct (decide (a = (r, {[r]}))) as [->|Hne]; [by apply Hsink in He|].
    assert (a ∈ dom (sg_nodes G') ∖ {[(r, {[r]})]}) as Hin by set_solver.
    rewrite Hrest in Hin. by apply not_elem_of_empty in Hin.
Qed.

Lemma prune_no_evidence_witness :
  create_support_graph 4 bn_crime "Crime" = Ok sg_crime
  ∧ size (sg_nodes sg_crime) < 6
  ∧ prune_support_graph 6 sg_crime ∅ = Some (root_graph "Crime").
Proof.
  assert (H : size (sg_nodes sg_crime) < 6) by by_evaluation.
  split_and!; [exact create_crime|exact H|].
  exact (prune_no_evidence 4 bn_crime "Crime" sg_crime 6 create_crime H).
Defined.

Lemma tc_sub {A : Type} (R1 R2 : relation A) (x y : A) :
  (∀ a b, R1 a b → R2 a b) → tc R1 x y → tc R2 x y.
Proof.
  intros Hsub. induction 1 as [x y H|x z y H _ IH].
  - by apply tc_once, Hsub.
  - eapply tc_l; [by apply Hsub|done].
Qed.

Lemma graph_inv_acyclic (root : snode) (g : SupportGraph) :
  graph_inv root g → ∀ n, ¬ tc (sg_edge g) n n.
Proof.
  intros Hg n Hcycle. apply (graph_inv_path_grows _ _ _ _ Hg) in Hcycle.
  set_solver.
Qed.

(** In an acyclic graph a pass never removes a successor of a node it
    keeps, so the survivors keep all their outgoing edges. *)
Lemma prune_loop_succ_closed (fuel : nat) (E : gset string) :
  ∀ g g', graph_closed g → (∀ x, ¬ tc (sg_edge g) x x) →
    prune_loop fuel g E = Some g' →
    ∀ n m, n ∈ dom (sg_nodes g') → (n, m) ∈ sg_edges g →
           m ∈ dom (sg_nodes g').
Proof.
  induction fuel as [|fuel IH]; intros g g' Hg Hacyc; simpl; [done|].
  destruct (decide (nodes_to_remove g E = ∅)) as [Hnone|Hsome].
  - intros [= <-] n m _ He. by apply (graph_closed_edge _ _ _ Hg He).
  - intros Hloop n m Hn He.
    pose proof (remove_nodes_from_closed g (elements (nodes_to_remove g E)) Hg)
      as Hg1.
    destruct (prune_loop_induced _ _ _ _ Hg1 Hloop) as [Hsub _].
    assert (Hkept : n ∉ nodes_to_remove g E).
    { intros Hin. apply elem_of_dom in Hn as [x Hx].
      eapply lookup_weaken in Hx; [|exact Hsub].
      rewrite remove_nodes_from_lookup, decide_True in Hx; [done|].
      by apply elem_of_elements. }
    eapply (IH _ _ Hg1); [|exact Hloop|exact Hn|].
    + intros x Hx. apply (Hacyc x). revert Hx. apply tc_sub.
      intros a b [Hab _]%remove_nodes_from_edges; done.
    + apply remove_nodes_from_edges; [done|].
      rewrite !elem_of_elements. split_and!; [done..|].
      intros [(e & a & He1 & He2 & Hne & Hpath)|(a & _ & _ & Hin & _)]%elem_of_nodes_to_remove;
        [| |done].
      * apply Hkept. apply elem_of_nodes_to_remove; [done|]. left.
        exists e, a. split_and!; [done..|]. split.
        -- intros ->. apply (Hacyc e). by eapply tc_l.
        -- by eapply tc_l.
      * by apply Hin in He.
Qed.

(** X16. Every node of a pruned built graph still has a directed path
    to the root inside the pruned graph: a surviving node keeps all its
    outgoing edges and their targets. *)
Theorem pruned_nodes_reach_root (fuel : nat) (bn : network) (r : string)
    (G G' : SupportGraph) (fuel' : nat) (E : gset string) :
  create_support_graph fuel bn r = Ok G →
  prune_support_graph fuel' G E = Some G' →
  (∀ n m, n ∈ dom (sg_nodes G') → (n, m) ∈ sg_edges G → (n, m) ∈ sg_edges G')
  ∧ (∀ n, n ∈ dom (sg_nodes G') → rtc (sg_edge G') n (r, {[r]})).
Proof.
  intros Hinv%create_support_graph_inv HG'.
  pose proof (graph_inv_closed _ _ Hinv) as Hclosed.
  destruct (prune_loop_induced _ _ _ _ Hclosed HG') as [Hsub Hedges].
  pose proof (prune_loop_succ_closed _ _ _ _ Hclosed
                (graph_inv_acyclic _ _ Hinv) HG') as Hsucc.
  assert (Hkeep : ∀ n m, n ∈ dom (sg_nodes G') → (n, m) ∈ sg_edges G →
                         (n, m) ∈ sg_edges G').
  { intros n m Hn He. apply Hedges. split_and!; [done..|]. by eapply Hsucc. }
  split; [done|]. intros n Hn.
  assert (Hpath : rtc (sg_edge G) n (r, {[r]})).
  { apply (inv_path _ _ Hinv). by eapply subseteq_dom. }
  induction Hpath as [|n m root He _ IH]; [apply rtc_refl|].
  apply rtc_l with m; [by apply Hkeep|]. apply IH; [done|]. by eapply Hsucc.
Qed.

Lemma pruned_nodes_reach_root_witness :
  create_support_graph 4 bn_crime "Crime" = Ok sg_crime
  ∧ prune_support_graph 6 sg_crime {["DNA_match"]} = Some pruned_crime
  ∧ ∀ n, n ∈ dom (sg_nodes pruned_crime) →
         rtc (sg_edge pruned_crime) n ("Crime", {["Crime"]}).
Proof.
  split_and!; [exact create_crime|exact prune_crime|].
  exact (proj2 (pruned_nodes_reach_root 4 bn_crime "Crime" sg_crime pruned_crime
                  6 {["DNA_match"]} create_crime prune_crime)).
Defined.

(** X17. In a pruned built graph a node whose variable is evidence has
    no supporter, and every other node except the root has one. *)
Theorem pruned_supporters (fuel : nat) (bn : network) (r : string)
    (G G' : SupportGraph) (fuel' : nat) (E : gset string) :
  create_support_graph fuel bn r = Ok G →
  prune_support_graph fuel' G E = Some G' →
  (∀ p n, (p, n) ∈ sg_edges G' → n.1 ∉ E)
  ∧ (∀ n, n ∈ dom (sg_nodes G') → n ≠ (r, {[r]}) → n.1 ∉ E →
          ∃ p, (p, n) ∈ sg_edges G').
Proof.
  intros Hinv%create_support_graph_inv HG'.
  pose proof (graph_inv_closed _ _ Hinv) as Hclosed.
  destruct (prune_loop_induced _ _ _ _ Hclosed HG') as [Hsub Hedges].
  pose proof (prune_loop_fixed _ _ _ _ HG') as Hfixed.
  pose proof (prune_loop_closed _ _ _ _ Hclosed HG') as Hclosed'.
  assert (Hlabel : ∀ n a, sg_nodes G' !! n = Some a → label a = n.1).
  { intros n a Hn. eapply lookup_weaken in Hn; [|exact Hsub].
    by apply (inv_attrs _ _ Hinv) in Hn as [? _]. }
  split.
  - intros p n He HE.
    assert (p ∈ nodes_to_remove G' E) as Hin.
    { apply elem_of_nodes_to_remove; [done|]. left.
      destruct (graph_closed_edge _ _ _ Hclosed' He) as [_ [a Ha]%elem_of_dom].
      exists n, a. split_and!; [done|by rewrite (Hlabel _ _ Ha)|].
      split; [|by apply tc_once].
      intros ->. apply (graph_inv_acyclic _ _ Hinv n), tc_once.
      by apply Hedges in He as [He _]. }
    rewrite Hfixed in Hin. by apply not_elem_of_empty in Hin.
  - intros n Hn Hnr HE.
    destruct (set_choose_or_empty (sg_predecessors G' n)) as [[p Hp]|Hnop].
    { exists p. by apply elem_of_sg_predecessors. }
    exfalso.
    assert (n ∈ nodes_to_remove G' E) as Hin.
    { apply elem_of_nodes_to_remove; [done|]. right.
      pose proof Hn as [a Ha]%elem_of_dom. exists a.
      split_and!; [done|by rewrite (Hlabel _ _ Ha)| |].
      - intros p Hp. apply elem_of_sg_predecessors in Hp. by apply Hnop in Hp.
      - destruct (inv_out _ _ Hinv n) as [m Hm]; [by eapply subseteq_dom|done|].
        exists m. apply Hedges. split_and!; [done..|].
        eapply prune_loop_succ_closed; [exact Hclosed| |exact HG'|exact Hn|exact Hm].
        by apply (graph_inv_acyclic _ _ Hinv). }
    rewrite Hfixed in Hin. by apply not_elem_of_empty in Hin.
Qed.

Lemma pruned_supporters_witness :
  create_support_graph 4 bn_crime "Crime" = Ok sg_crime
  ∧ prune_support_graph 6 sg_crime {["DNA_match"]} = Some pruned_crime
  ∧ (∀ p n, (p, n) ∈ sg_edges pruned_crime →
            n.1 ∉ ({["DNA_match"]} : gset string)).
Proof.
  split_and!; [exact create_crime|exact prune_crime|].
  exact (proj1 (pruned_supporters 4 bn_crime "Crime" sg_crime pruned_crime
                  6 {["DNA_match"]} create_crime prune_crime)).
Defined.
